(** * KSUID: a shallow embedding of [ksuid.go] and its properties

    A KSUID is a 20-byte value: a 4-byte big-endian timestamp (seconds
    since a custom epoch) followed by a 16-byte payload.  Its text form is
    a 27-character base-62 string.

    The development follows the Go source function by function.  Go
    slices are modelled with their backing array, because [Parse] reads
    its result from the array the decoder wrote into, not from the slice
    the decoder returned. *)

From Stdlib Require Import ZArith NArith String List Bool Lia.
From Stdlib Require Import Strings.Byte.
Import ListNotations.

Local Open Scope nat_scope.

(** ** Bytes *)

(** A [uint8] as a number. *)
Definition u8 (b : byte) : Z := Z.of_N (Byte.to_N b).

(** Go's conversion [byte(n)] of a number that fits in a byte. *)
Definition byte_of_N (n : N) : byte :=
  match Byte.of_N n with
  | Some b => b
  | None => x00
  end.

(** Go's conversion [byte(v)] of an integer: the low eight bits. *)
Definition byte_of_Z (v : Z) : byte := byte_of_N (Z.to_N (v mod 256)).

Fixpoint bytes_eqb (a b : list byte) : bool :=
  match a, b with
  | [], [] => true
  | x :: a', y :: b' => Byte.eqb x y && bytes_eqb a' b'
  | _, _ => false
  end.

(** ** Constants ([ksuid.go], lines 14-34) *)

Definition epochStamp : Z := 1400000000.
Definition timestampLengthInBytes : nat := 4.
Definition payloadLengthInBytes : nat := 16.
Definition byteLength : nat := timestampLengthInBytes + payloadLengthInBytes.
Definition stringEncodedLength : nat := 27.
Definition maxStringEncoded : string := "aWgEPTl1tmebfsQzFP4bxwgy80V".

(** ** Errors and results *)

Inductive error : Type :=
| errSize          (* "Valid KSUIDs are 20 bytes" *)
| errStrSize       (* "Valid encoded KSUIDs are 27 characters" *)
| errPayloadSize   (* "Valid KSUID payloads are 16 bytes" *)
| errScanType (typ : string)   (* "Scan: unable to scan type %T into KSUID" *)
| errRead (msg : string).      (* an error of the random source *)

(** A call either returns or panics. *)
Inductive outcome (A : Type) : Type :=
| Ret (a : A)
| Panic.
Arguments Ret {A} a.
Arguments Panic {A}.

(** ** Arrays and slices *)

(** Go's [copy(dst, src)]: the first [min (len dst) (len src)] elements of
    [dst] are overwritten; the result is [dst] afterwards. *)
Definition copy (dst src : list byte) : list byte :=
  firstn (length dst) src ++ skipn (length src) dst.

(** [copy(a[off:], src)], as the array [a] afterwards.  The source is read
    before anything is written, as Go's [copy] does for overlapping
    slices. *)
Definition copy_at (a : list byte) (off : nat) (src : list byte) : list byte :=
  firstn off a ++ copy (skipn off a) src.

(** [a[i] = x]. *)
Definition upd (i : nat) (x : byte) (a : list byte) : list byte :=
  copy_at a i [x].

(** A slice: its backing array from the slice's first element up to its
    capacity, and its length. *)
Record slice : Type := mkSlice { data : list byte; len : nat }.

Definition cap (s : slice) : nat := length (data s).
Definition elems (s : slice) : list byte := firstn (len s) (data s).

(** A slice never extends beyond its backing array. *)
Definition wf_slice (s : slice) : Prop := len s <= cap s.

(** [make([]byte, n, c)]. *)
Definition make (n c : nat) : slice := mkSlice (repeat x00 c) n.

(** The built-in [append(s, xs...)].  The first component is the returned
    slice; the second is the backing array of [s] after the call.  Within
    capacity the elements are written in place, so both share the array;
    beyond it a new array is allocated and the old one is left alone.  Go
    leaves the capacity of the new array open; it is the new length here. *)
Definition go_append (s : slice) (xs : list byte) : slice * list byte :=
  if len s + length xs <=? cap s
  then let a := copy_at (data s) (len s) xs in
       (mkSlice a (len s + length xs), a)
  else (mkSlice (elems s ++ xs) (len s + length xs), data s).

(** [copy(s[off:], src)] on a slice, as the slice afterwards. *)
Definition slice_copy_at (s : slice) (off : nat) (src : list byte) : slice :=
  mkSlice (copy_at (elems s) off src ++ skipn (len s) (data s)) (len s).

(** ** Time *)

(** An instant of [time.Time]: whole seconds since the Unix epoch and the
    nanoseconds within the second.  The location and the monotonic clock
    reading, which do not take part in what [ksuid.go] computes, are left
    out. *)
Record Time : Type := mkTime { unixSec : Z; nanos : Z }.

(** [t.Unix()]. *)
Definition Unix (t : Time) : Z := unixSec t.

(** [time.Unix(sec, nsec)]. *)
Definition time_Unix (sec nsec : Z) : Time :=
  mkTime (sec + nsec / 1000000000) (nsec mod 1000000000).

(** [t.Truncate(time.Second)]. *)
Definition truncateToSecond (t : Time) : Time := mkTime (unixSec t) 0.

(** Wrap-around of [int64] arithmetic and the conversion [uint32(x)]. *)
Definition wrap64 (z : Z) : Z := (z + 2 ^ 63) mod 2 ^ 64 - 2 ^ 63.
Definition to_uint32 (z : Z) : Z := z mod 2 ^ 32.

(** ** [encoding/binary]: big-endian 32-bit words *)

Definition Uint32 (b : list byte) : Z :=
  Z.lor (Z.lor (Z.lor (u8 (nth 3 b x00))
                      (Z.shiftl (u8 (nth 2 b x00)) 8))
               (Z.shiftl (u8 (nth 1 b x00)) 16))
        (Z.shiftl (u8 (nth 0 b x00)) 24).

Definition PutUint32 (b : list byte) (v : Z) : list byte :=
  let b := upd 0 (byte_of_Z (Z.shiftr v 24)) b in
  let b := upd 1 (byte_of_Z (Z.shiftr v 16)) b in
  let b := upd 2 (byte_of_Z (Z.shiftr v 8)) b in
  upd 3 (byte_of_Z v) b.

(** [bytes.Compare]: lexicographic, unsigned, a proper prefix first. *)
Fixpoint bytes_Compare (a b : list byte) : Z :=
  match a, b with
  | [], [] => 0
  | [], _ :: _ => -1
  | _ :: _, [] => 1
  | x :: a', y :: b' =>
      match N.compare (Byte.to_N x) (Byte.to_N y) with
      | Lt => -1
      | Gt => 1
      | Eq => bytes_Compare a' b'
      end
  end%Z.

(** Comparison of Go strings: of their bytes. *)
Definition strings_Compare (s t : string) : Z :=
  bytes_Compare (list_byte_of_string s) (list_byte_of_string t).

(** ** The base-62 codec

    [appendEncodeBase62] and [appendDecodeBase62] are called by
    [ksuid.go] and defined in another file of the package, which is not
    at hand.  They are modelled from the specification of the codec. *)

(** Modelled from the spec: the alphabet of the codec, which [ksuid.go]
    does not define: the characters [0-9A-Za-z], with digit values 0 to 61
    in that order. *)
Definition base62Characters : string :=
  "0123456789ABCDEFGHIJKLMNOPQRSTUVWXYZabcdefghijklmnopqrstuvwxyz".

(** The number a list of digits, most significant first, stands for:
    multiply by the base and add, digit by digit. *)
Definition bigValue (base : N) (ds : list N) : N :=
  fold_left (fun acc d => acc * base + d)%N ds 0%N.

(** Repeated division: the digits of [n], least significant first. *)
Fixpoint digitsLSF (fuel : nat) (base n : N) : list N :=
  match fuel with
  | O => []
  | S fuel' =>
      if (n =? 0)%N then []
      else (n mod base)%N :: digitsLSF fuel' base (n / base)%N
  end.

(** The digits of [n], most significant first, none for zero.  A number
    has no more digits than bits, which bounds the divisions. *)
Definition bigDigits (base n : N) : list N :=
  rev (digitsLSF (N.to_nat (N.size n)) base n).

Fixpoint index_of (c : byte) (l : list byte) : option nat :=
  match l with
  | [] => None
  | x :: l' =>
      if Byte.eqb c x then Some 0
      else match index_of c l' with
           | Some i => Some (S i)
           | None => None
           end
  end.

(** The character of a digit. *)
Definition base62Char (d : N) : byte :=
  nth (N.to_nat d) (list_byte_of_string base62Characters) x00.

(** The digit of a character; [None] outside the alphabet. *)
Definition base62Value (c : byte) : option N :=
  option_map N.of_nat (index_of c (list_byte_of_string base62Characters)).

Fixpoint base62Values (cs : list byte) : option (list N) :=
  match cs with
  | [] => Some []
  | c :: cs' =>
      match base62Value c, base62Values cs' with
      | Some d, Some ds => Some (d :: ds)
      | _, _ => None
      end
  end.

(** Modelled from the spec: the encoding that [appendEncodeBase62]
    appends.  The input is read as a base-256 number, which is divided by
    62 repeatedly to give its base-62 digits from the least significant
    one; these are reversed and written in the alphabet. *)
Definition encodeBase62 (src : list byte) : list byte :=
  map base62Char (bigDigits 62 (bigValue 256 (map Byte.to_N src))).

(** Modelled from the spec: the decoding that [appendDecodeBase62]
    appends.  The characters are read as base-62 digits and accumulated by
    multiplying by 62 and adding; the result is the bytes of the number,
    most significant first.  A character outside the alphabet makes
    decoding fail ([None]). *)
Definition decodeBase62 (src : list byte) : option (list byte) :=
  match base62Values src with
  | None => None
  | Some ds => Some (map byte_of_N (bigDigits 256 (bigValue 62 ds)))
  end.

(** Modelled from the spec: [appendEncodeBase62], which [ksuid.go] calls
    and does not define.  The encoding is appended to [dst]; padding to
    the fixed width is left to the caller, [Append]. *)
Definition appendEncodeBase62 (dst : slice) (src : list byte) : slice :=
  fst (go_append dst (encodeBase62 src)).

(** Modelled from the spec: [appendDecodeBase62], which [ksuid.go] calls
    and does not define.  The decoding is appended to [dst]; padding to 20
    bytes is left to the caller, [Parse].  A successful call gives the
    returned slice and the array of [dst] as the call leaves it.  The call
    has a single result, a slice, so a failure of decoding has no error
    value to travel in: it is [None] here, and [Parse] cannot continue. *)
Definition appendDecodeBase62 (dst : slice) (src : list byte)
  : option (slice * list byte) :=
  match decodeBase62 src with
  | None => None
  | Some bs => Some (go_append dst bs)
  end.

(** ** The identifier ([ksuid.go], lines 36-50) *)

(** [type KSUID [byteLength]byte]: a list of [byteLength] bytes. *)
Definition KSUID := list byte.

(** The zero value of the array type. *)
Definition Nil : KSUID := repeat x00 byteLength.

(** The array [zeroes] of [Append]: 27 characters [0]. *)
Definition zeroes : list byte := repeat "0"%byte stringEncodedLength.

(** ** Methods *)

Definition Append (i : KSUID) (b : slice) : slice :=
  let b :=
    if cap b <? stringEncodedLength
    then let c := make (len b) (len b + stringEncodedLength) in
         slice_copy_at c 0 (elems b)
    else b in
  let off := len b in
  let b := appendEncodeBase62 b i in
  let pad := (Z.of_nat stringEncodedLength - (Z.of_nat (len b) - Z.of_nat off))%Z in
  if (0 <? pad)%Z then
    let pad := Z.to_nat pad in
    let b := fst (go_append b (firstn pad zeroes)) in
    let b := slice_copy_at b (off + pad) (skipn off (elems b)) in
    slice_copy_at b off (firstn pad zeroes)
  else b.

Definition Timestamp (i : KSUID) : Z :=
  Uint32 (firstn timestampLengthInBytes i).

Definition correctedUTCTimestampToTime (ts : Z) : Time :=
  time_Unix (wrap64 (ts + epochStamp)) 0.

Definition timeToCorrectedUTCTimestamp (t : Time) : Z :=
  to_uint32 (wrap64 (Unix t - epochStamp)).

(** The method [Time]. *)
Definition KTime (i : KSUID) : Time :=
  correctedUTCTimestampToTime (Timestamp i).

Definition Payload (i : KSUID) : list byte :=
  skipn timestampLengthInBytes i.

(** The method [String]. *)
Definition KString (i : KSUID) : string :=
  string_of_list_byte (elems (Append i (make 0 stringEncodedLength))).

Definition Bytes (i : KSUID) : list byte := i.

Definition IsNil (i : KSUID) : bool := bytes_eqb i Nil.

Definition Compare (a b : KSUID) : Z := bytes_Compare a b.

(** ** Constructors *)

Definition FromBytes (b : list byte) : KSUID * option error :=
  let ksuid := Nil in
  if negb (length b =? byteLength) then (Nil, Some errSize)
  else (copy ksuid b, None).

Definition FromParts (t : Time) (payload : list byte) : KSUID * option error :=
  if negb (length payload =? payloadLengthInBytes) then (Nil, Some errPayloadSize)
  else
    let ksuid := Nil in
    let ts := timeToCorrectedUTCTimestamp t in
    let ksuid :=
      copy_at ksuid 0 (PutUint32 (firstn timestampLengthInBytes ksuid) ts) in
    let ksuid := copy_at ksuid timestampLengthInBytes payload in
    (ksuid, None).

(** [Parse] takes no error from the decoder, whose only result is a slice;
    where the decoder fails, [Parse] does not return. *)
Definition Parse (s : string) : outcome (KSUID * option error) :=
  if negb (String.length s =? stringEncodedLength) then Ret (Nil, Some errStrSize)
  else
    let src := repeat x00 stringEncodedLength in
    let dst := repeat x00 byteLength in
    let src := copy src (list_byte_of_string s) in
    match appendDecodeBase62 (mkSlice dst 0) src with
    | None => Panic
    | Some (decoded, dst) =>
        let pad := (Z.of_nat byteLength - Z.of_nat (len decoded))%Z in
        let dst :=
          if (0 <? pad)%Z then
            let pad := Z.to_nat pad in
            let zeroes := repeat x00 byteLength in
            let dst := copy_at dst pad dst in
            copy dst (firstn pad zeroes)
          else dst in
        Ret (FromBytes dst)
    end.

(** ** Marshalling and the database adapter

    A method with a pointer receiver takes the identifier stored there and
    returns the one stored afterwards, with the error. *)

Definition MarshalText (i : KSUID) : list byte * option error :=
  (list_byte_of_string (KString i), None).

Definition MarshalBinary (i : KSUID) : list byte * option error :=
  (Bytes i, None).

Definition UnmarshalText (i : KSUID) (b : list byte)
  : outcome (KSUID * option error) :=
  match Parse (string_of_list_byte b) with
  | Panic => Panic
  | Ret (_, Some err) => Ret (i, Some err)
  | Ret (id, None) => Ret (id, None)
  end.

Definition UnmarshalBinary (i : KSUID) (b : list byte) : KSUID * option error :=
  match FromBytes b with
  | (_, Some err) => (i, Some err)
  | (id, None) => (id, None)
  end.

(** The method [Set] of [flag.Value]. *)
Definition KSet (i : KSUID) (s : string) : outcome (KSUID * option error) :=
  UnmarshalText i (list_byte_of_string s).

(** The method [Value] of [driver.Valuer]. *)
Definition Value (i : KSUID) : string * option error := (KString i, None).

Definition scan (i : KSUID) (b : list byte) : outcome (KSUID * option error) :=
  match length b with
  | 0 => Ret (Nil, None)
  | n =>
      if n =? byteLength then Ret (UnmarshalBinary i b)
      else if n =? stringEncodedLength then UnmarshalText i b
      else Ret (i, Some errSize)
  end.

(** The dynamic type of the argument of [Scan]. *)
Inductive scan_src : Type :=
| SrcNil
| SrcBytes (v : list byte)
| SrcString (v : string)
| SrcOther (typ : string).

Definition Scan (i : KSUID) (src : scan_src) : outcome (KSUID * option error) :=
  match src with
  | SrcNil => scan i []
  | SrcBytes v => scan i v
  | SrcString v => scan i (list_byte_of_string v)
  | SrcOther typ => Ret (i, Some (errScanType typ))
  end.

(** The bytes [Scan] hands to [scan], for the three types it accepts. *)
Definition src_bytes (src : scan_src) : option (list byte) :=
  match src with
  | SrcNil => Some []
  | SrcBytes v => Some v
  | SrcString v => Some (list_byte_of_string v)
  | SrcOther _ => None
  end.

(** ** Generation

    What a call of [NewRandom] meets: the outcome of
    [io.ReadFull(rander, buf)] as the bytes read and the error, the
    buffer the pool hands out, and the clock. *)
Record env : Type := mkEnv {
  readFull : nat -> list byte * option error;
  pooled : list byte;
  now : Time
}.

Definition NewRandom (e : env) : KSUID * option error :=
  let payload := copy (repeat x00 payloadLengthInBytes) (pooled e) in
  let (read, err) := readFull e (length payload) in
  let payload := copy payload read in
  match err with
  | Some err => (Nil, Some err)
  | None =>
      match FromParts (now e) payload with
      | (_, Some err) => (Nil, Some err)
      | (ksuid, None) => (ksuid, None)
      end
  end.

Definition New (e : env) : outcome KSUID :=
  match NewRandom e with
  | (_, Some err) => Panic
  | (ksuid, None) => Ret ksuid
  end.

(** ** Notions the properties are stated with *)

(** Lexicographic comparison of digit lists, a proper prefix first. *)
Fixpoint lexCompare (xs ys : list N) : comparison :=
  match xs, ys with
  | [], [] => Eq
  | [], _ :: _ => Lt
  | _ :: _, [] => Gt
  | x :: xs', y :: ys' =>
      match N.compare x y with
      | Eq => lexCompare xs' ys'
      | c => c
      end
  end.

(** The integer Go's comparisons return. *)
Definition cmpZ (c : comparison) : Z :=
  match c with
  | Lt => -1
  | Eq => 0
  | Gt => 1
  end%Z.

(** Every character of the string is in the base-62 alphabet. *)
Definition isBase62 (s : string) : bool :=
  match base62Values (list_byte_of_string s) with
  | Some _ => true
  | None => false
  end.

(** The call returned, and returned an error. *)
Definition returns_error {A : Type} (o : outcome (A * option error)) : bool :=
  match o with
  | Ret (_, Some _) => true
  | _ => false
  end.

(** The 160-bit number an identifier stands for. *)
Definition ksuidValue (i : KSUID) : N := bigValue 256 (map Byte.to_N i).

(** ** Running the definitions on small inputs *)

Example ex_string_nil : KString Nil = "000000000000000000000000000"%string.
Proof. vm_compute. reflexivity. Qed.

Example ex_parse_max :
  Parse maxStringEncoded = Ret (repeat xff byteLength, None).
Proof. vm_compute. reflexivity. Qed.

Example ex_string_max : KString (repeat xff byteLength) = maxStringEncoded.
Proof. vm_compute. reflexivity. Qed.

(** * Properties *)

(** ** Lists, [copy] and strings *)

Lemma length_copy (dst src : list byte) : length (copy dst src) = length dst.
Proof.
  unfold copy. rewrite length_app, length_firstn, length_skipn. lia.
Qed.

Lemma copy_same_length (dst src : list byte) :
  length src = length dst -> copy dst src = src.
Proof.
  intros H. unfold copy.
  rewrite <- H, firstn_all, skipn_all2 by lia. apply app_nil_r.
Qed.

Lemma length_copy_at (a : list byte) (off : nat) (src : list byte) :
  length (copy_at a off src) = length a.
Proof.
  unfold copy_at. rewrite length_app, length_copy, <- length_app, firstn_skipn.
  reflexivity.
Qed.

Lemma length_list_byte_of_string (s : string) :
  length (list_byte_of_string s) = String.length s.
Proof.
  unfold list_byte_of_string. rewrite length_map.
  induction s as [|c s IH]; simpl; congruence.
Qed.

Lemma length_string_of_list_byte (l : list byte) :
  String.length (string_of_list_byte l) = length l.
Proof.
  rewrite <- length_list_byte_of_string, list_byte_of_string_of_list_byte.
  reflexivity.
Qed.

Lemma bytes_eqb_eq (a b : list byte) : bytes_eqb a b = true <-> a = b.
Proof.
  revert b. induction a as [|x a IH]; intros [|y b]; simpl; split;
    try congruence; try discriminate.
  - intros H. apply andb_true_iff in H. destruct H as [H1 H2].
    apply Byte.byte_dec_bl in H1. apply IH in H2. congruence.
  - intros H. injection H as -> ->. apply andb_true_iff. split.
    + now apply Byte.byte_dec_lb.
    + now apply IH.
Qed.

Lemma Forall_zero_repeat (k : list byte) :
  Forall (fun b => b = x00) k <-> k = repeat x00 (length k).
Proof.
  induction k as [|x k IH]; simpl.
  - split; auto.
  - split.
    + intros H. inversion H; subst. f_equal. now apply IH.
    + intros H. injection H as -> Hk. constructor; [reflexivity | now apply IH].
Qed.

(** ** Constructors *)

Lemma FromBytes_ok (b : list byte) :
  length b = byteLength -> FromBytes b = (b, None).
Proof.
  intros H. unfold FromBytes. rewrite H, Nat.eqb_refl. simpl negb. cbv iota.
  rewrite copy_same_length; [reflexivity|].
  rewrite H. reflexivity.
Qed.

Lemma FromBytes_length (b k : list byte) (e : option error) :
  FromBytes b = (k, e) -> length k = byteLength.
Proof.
  unfold FromBytes. destruct (negb _); intros H; injection H as <- _.
  - reflexivity.
  - now rewrite length_copy.
Qed.

(** C6. Length validation.  [Parse] answers a string whose length is not
    27 with the string-size error, [FromBytes] a slice whose length is not
    20 with the size error, [FromParts] a payload whose length is not 16
    with the payload-size error, and each returns [Nil] with it. *)
Theorem length_validation (s : string) (b : list byte) (t : Time) (p : list byte) :
  (String.length s <> stringEncodedLength ->
     Parse s = Ret (Nil, Some errStrSize)) /\
  (length b <> byteLength -> FromBytes b = (Nil, Some errSize)) /\
  (length p <> payloadLengthInBytes ->
     FromParts t p = (Nil, Some errPayloadSize)).
Proof.
  split; [|split]; intros H.
  - unfold Parse. apply Nat.eqb_neq in H. now rewrite H.
  - unfold FromBytes. apply Nat.eqb_neq in H. now rewrite H.
  - unfold FromParts. apply Nat.eqb_neq in H. now rewrite H.
Qed.

Lemma length_validation_witness :
  Parse "short" = Ret (Nil, Some errStrSize) /\
  FromBytes (repeat x00 19) = (Nil, Some errSize) /\
  FromParts (mkTime 1500000000 0) (repeat x00 15) = (Nil, Some errPayloadSize).
Proof.
  destruct (length_validation "short" (repeat x00 19) (mkTime 1500000000 0)
              (repeat x00 15)) as (H1 & H2 & H3).
  split; [|split]; [apply H1 | apply H2 | apply H3]; vm_compute; discriminate.
Defined.

(** C8. Nil identity.  [FromBytes] of twenty zero bytes succeeds with an
    identifier for which [IsNil] holds, and [IsNil] holds of an identifier
    exactly when all of its twenty bytes are zero. *)
Theorem nil_identity :
  (exists k, FromBytes (repeat x00 20) = (k, None) /\ IsNil k = true) /\
  (forall k : KSUID, length k = byteLength ->
     (IsNil k = true <-> Forall (fun b => b = x00) k)).
Proof.
  split.
  - exists Nil. split; reflexivity.
  - intros k Hk. unfold IsNil. rewrite bytes_eqb_eq, Forall_zero_repeat, Hk.
    reflexivity.
Qed.

Lemma nil_identity_witness :
  IsNil Nil = true <-> Forall (fun b => b = x00) Nil.
Proof.
  destruct nil_identity as [_ H]. apply (H Nil). reflexivity.
Defined.

(** ** Generation *)

(** C9. Entropy failure.  When reading the random source fails,
    [NewRandom] returns [Nil] with that very error, and [New] panics. *)
Theorem entropy_failure (e : env) (read : list byte) (err : error) :
  readFull e payloadLengthInBytes = (read, Some err) ->
  NewRandom e = (Nil, Some err) /\ New e = Panic.
Proof.
  intros H.
  assert (HN : NewRandom e = (Nil, Some err)).
  { unfold NewRandom. rewrite length_copy, repeat_length, H. reflexivity. }
  split; [exact HN|]. unfold New. now rewrite HN.
Qed.

Lemma entropy_failure_witness :
  let e := mkEnv (fun _ => ([], Some (errRead "EOF"))) (repeat x00 16)
             (mkTime 1500000000 0) in
  NewRandom e = (Nil, Some (errRead "EOF")) /\ New e = Panic.
Proof.
  apply (entropy_failure _ []). reflexivity.
Defined.

(** ** The database adapter *)

(** C7. [Scan] of nil, a byte slice or a string goes by the length of the
    input: empty input stores [Nil] and succeeds; 20 bytes are unmarshalled
    as binary; 27 bytes are parsed as text; any other length leaves the
    receiver alone and fails with the size error. *)
Theorem scan_by_length (i : KSUID) (src : scan_src) (b : list byte) :
  src_bytes src = Some b ->
  (length b = 0 -> Scan i src = Ret (Nil, None)) /\
  (length b = byteLength -> Scan i src = Ret (UnmarshalBinary i b)) /\
  (length b = stringEncodedLength -> Scan i src = UnmarshalText i b) /\
  (length b <> 0 -> length b <> byteLength -> length b <> stringEncodedLength ->
     Scan i src = Ret (i, Some errSize)).
Proof.
  intros Hsrc.
  assert (HS : Scan i src = scan i b).
  { destruct src; simpl in Hsrc; try discriminate;
      injection Hsrc as <-; reflexivity. }
  rewrite HS. unfold scan. split; [|split; [|split]].
  - intros ->. reflexivity.
  - intros ->. reflexivity.
  - intros ->. reflexivity.
  - intros H0 H1 H2. apply Nat.eqb_neq in H1, H2.
    destruct (length b); [congruence|]. now rewrite H1, H2.
Qed.

Lemma scan_by_length_witness :
  Scan Nil (SrcString "abc") = Ret (Nil, Some errSize) /\
  Scan (repeat xff 20) SrcNil = Ret (Nil, None) /\
  Scan Nil (SrcBytes (repeat x01 20)) = Ret (UnmarshalBinary Nil (repeat x01 20)) /\
  Scan Nil (SrcString maxStringEncoded)
    = UnmarshalText Nil (list_byte_of_string maxStringEncoded).
Proof.
  split; [|split; [|split]].
  - apply (scan_by_length Nil (SrcString "abc") (list_byte_of_string "abc"));
      [reflexivity | vm_compute; discriminate ..].
  - apply (scan_by_length (repeat xff 20) SrcNil []); reflexivity.
  - apply (scan_by_length Nil (SrcBytes (repeat x01 20)) (repeat x01 20));
      reflexivity.
  - apply (scan_by_length Nil (SrcString maxStringEncoded)
             (list_byte_of_string maxStringEncoded)); reflexivity.
Defined.

(** ** Timestamps *)

Section Words.
Local Open Scope Z_scope.

Lemma u8_range (b : byte) : 0 <= u8 b < 256.
Proof.
  unfold u8. pose proof (Byte.to_N_bounded b). lia.
Qed.

Lemma byte_of_Z_u8 (b : byte) : byte_of_Z (u8 b) = b.
Proof.
  unfold byte_of_Z. rewrite Z.mod_small by apply u8_range.
  unfold u8, byte_of_N. now rewrite N2Z.id, Byte.of_to_N.
Qed.

Lemma u8_byte_of_Z (v : Z) : u8 (byte_of_Z v) = v mod 256.
Proof.
  assert (H : 0 <= v mod 256 < 256) by (apply Z.mod_pos_bound; lia).
  unfold byte_of_Z, byte_of_N, u8.
  destruct (Byte.of_N (Z.to_N (v mod 256))) as [b|] eqn:E.
  - apply Byte.to_of_N in E. rewrite E. lia.
  - apply Byte.of_N_None_iff in E. lia.
Qed.

Lemma testbit_above (x n k : Z) :
  0 <= x < 2 ^ k -> 0 <= k <= n -> Z.testbit x n = false.
Proof.
  intros Hx Hk. rewrite <- (Z.mod_small x (2 ^ k)) by exact Hx.
  apply Z.mod_pow2_bits_high. exact Hk.
Qed.

(** Below a shifted word, [lor] adds. *)
Lemma lor_shiftl_add (a b k : Z) :
  0 <= a < 2 ^ k -> 0 <= k -> Z.lor a (Z.shiftl b k) = a + b * 2 ^ k.
Proof.
  intros Ha Hk.
  assert (Hland : Z.land a (Z.shiftl b k) = 0).
  { apply Z.bits_inj'. intros n Hn.
    rewrite Z.land_spec, Z.bits_0.
    destruct (Z.lt_ge_cases n k) as [Hlt|Hge].
    - rewrite Z.shiftl_spec_low by exact Hlt. apply andb_false_r.
    - rewrite (testbit_above a n k) by lia. reflexivity. }
  rewrite <- Z.lxor_lor by exact Hland.
  rewrite <- Z.add_nocarry_lxor by exact Hland.
  now rewrite Z.shiftl_mul_pow2 by exact Hk.
Qed.

(** A big-endian word is the sum of its bytes, each at its place. *)
Lemma Uint32_sum (b0 b1 b2 b3 : byte) (rest : list byte) :
  Uint32 (b0 :: b1 :: b2 :: b3 :: rest)
  = u8 b3 + u8 b2 * 2 ^ 8 + u8 b1 * 2 ^ 16 + u8 b0 * 2 ^ 24.
Proof.
  unfold Uint32. cbn [nth].
  pose proof (u8_range b0). pose proof (u8_range b1).
  pose proof (u8_range b2). pose proof (u8_range b3).
  rewrite (lor_shiftl_add (u8 b3)) by lia.
  rewrite (lor_shiftl_add (u8 b3 + _)) by lia.
  rewrite (lor_shiftl_add (u8 b3 + _ + _)) by lia.
  reflexivity.
Qed.

Lemma Uint32_range (b : list byte) :
  length b = 4%nat -> 0 <= Uint32 b < 2 ^ 32.
Proof.
  destruct b as [|b0 [|b1 [|b2 [|b3 [|? ?]]]]]; try discriminate. intros _.
  rewrite Uint32_sum.
  pose proof (u8_range b0). pose proof (u8_range b1).
  pose proof (u8_range b2). pose proof (u8_range b3). lia.
Qed.

Lemma PutUint32_bytes (a0 a1 a2 a3 : byte) (v : Z) :
  PutUint32 [a0; a1; a2; a3] v
  = [byte_of_Z (Z.shiftr v 24); byte_of_Z (Z.shiftr v 16);
     byte_of_Z (Z.shiftr v 8); byte_of_Z v].
Proof. reflexivity. Qed.

(** Reading back a word that was written gives its low 32 bits. *)
Lemma Uint32_PutUint32 (a0 a1 a2 a3 : byte) (v : Z) :
  Uint32 (PutUint32 [a0; a1; a2; a3] v) = v mod 2 ^ 32.
Proof.
  rewrite PutUint32_bytes, Uint32_sum, !u8_byte_of_Z.
  rewrite !Z.shiftr_div_pow2 by lia.
  change (2 ^ 8) with 256. change (2 ^ 16) with (256 * 256).
  change (2 ^ 24) with (256 * 256 * 256).
  change (2 ^ 32) with (256 * 256 * 256 * 256).
  rewrite <- !Z.div_div by lia.
  Z.div_mod_to_equations. lia.
Qed.

Lemma byte_of_Z_eq (v : Z) (b : byte) : v mod 256 = u8 b -> byte_of_Z v = b.
Proof.
  intros H. rewrite <- (byte_of_Z_u8 b). unfold byte_of_Z.
  now rewrite H, (Z.mod_small (u8 b)) by apply u8_range.
Qed.

(** Writing a word that was read gives back its bytes. *)
Lemma PutUint32_Uint32 (a0 a1 a2 a3 b0 b1 b2 b3 : byte) (rest : list byte) :
  PutUint32 [a0; a1; a2; a3] (Uint32 (b0 :: b1 :: b2 :: b3 :: rest))
  = [b0; b1; b2; b3].
Proof.
  rewrite PutUint32_bytes, Uint32_sum.
  pose proof (u8_range b0). pose proof (u8_range b1).
  pose proof (u8_range b2). pose proof (u8_range b3).
  rewrite !Z.shiftr_div_pow2 by lia.
  change (2 ^ 8) with 256. change (2 ^ 16) with (256 * 256).
  change (2 ^ 24) with (256 * 256 * 256).
  rewrite <- !Z.div_div by lia.
  f_equal; [|f_equal; [|f_equal; [|f_equal]]];
    apply byte_of_Z_eq; Z.div_mod_to_equations; lia.
Qed.

Lemma to_uint32_wrap64 (z : Z) : to_uint32 (wrap64 z) = z mod 2 ^ 32.
Proof.
  unfold to_uint32, wrap64.
  change (2 ^ 63) with 9223372036854775808.
  change (2 ^ 64) with 18446744073709551616.
  change (2 ^ 32) with 4294967296.
  Z.div_mod_to_equations. lia.
Qed.

Lemma wrap64_small (z : Z) : - 2 ^ 63 <= z < 2 ^ 63 -> wrap64 z = z.
Proof.
  intros H. unfold wrap64. rewrite Z.mod_small; lia.
Qed.

Lemma time_Unix_whole (sec : Z) : time_Unix sec 0 = mkTime sec 0.
Proof.
  unfold time_Unix. f_equal. change (0 / 1000000000) with 0. lia.
Qed.

End Words.

Section Parts.
Local Open Scope Z_scope.

Lemma timeToCorrectedUTCTimestamp_mod (t : Time) :
  timeToCorrectedUTCTimestamp t = (Unix t - epochStamp) mod 2 ^ 32.
Proof.
  unfold timeToCorrectedUTCTimestamp. apply to_uint32_wrap64.
Qed.

Lemma correctedUTCTimestampToTime_whole (ts : Z) :
  0 <= ts < 2 ^ 32 ->
  correctedUTCTimestampToTime ts = mkTime (ts + epochStamp) 0.
Proof.
  intros H. unfold correctedUTCTimestampToTime.
  rewrite time_Unix_whole, wrap64_small; [reflexivity|].
  unfold epochStamp. lia.
Qed.

(** The two conversions are inverse on 32-bit timestamps. *)
Lemma timestamp_of_time_of_timestamp (ts : Z) :
  0 <= ts < 2 ^ 32 ->
  timeToCorrectedUTCTimestamp (correctedUTCTimestampToTime ts) = ts.
Proof.
  intros H. rewrite correctedUTCTimestampToTime_whole by exact H.
  rewrite timeToCorrectedUTCTimestamp_mod. unfold Unix, unixSec.
  replace (ts + epochStamp - epochStamp) with ts by lia.
  now apply Z.mod_small.
Qed.

(** What [FromParts] assembles: the four bytes of the timestamp, then the
    payload. *)
Lemma FromParts_ok (t : Time) (p : list byte) :
  length p = payloadLengthInBytes ->
  FromParts t p
  = (PutUint32 [x00; x00; x00; x00] (timeToCorrectedUTCTimestamp t) ++ p, None).
Proof.
  intros Hp. unfold FromParts. rewrite Hp, Nat.eqb_refl. cbv [negb].
  f_equal.
  change (firstn timestampLengthInBytes Nil) with [x00; x00; x00; x00].
  rewrite PutUint32_bytes.
  generalize (byte_of_Z (Z.shiftr (timeToCorrectedUTCTimestamp t) 24)),
    (byte_of_Z (Z.shiftr (timeToCorrectedUTCTimestamp t) 16)),
    (byte_of_Z (Z.shiftr (timeToCorrectedUTCTimestamp t) 8)),
    (byte_of_Z (timeToCorrectedUTCTimestamp t)).
  intros c0 c1 c2 c3.
  change (copy_at Nil 0 [c0; c1; c2; c3])
    with ([c0; c1; c2; c3] ++ repeat x00 payloadLengthInBytes).
  unfold copy_at.
  change (firstn timestampLengthInBytes
            ([c0; c1; c2; c3] ++ repeat x00 payloadLengthInBytes))
    with [c0; c1; c2; c3].
  change (skipn timestampLengthInBytes
            ([c0; c1; c2; c3] ++ repeat x00 payloadLengthInBytes))
    with (repeat x00 payloadLengthInBytes).
  rewrite copy_same_length; [reflexivity|].
  now rewrite repeat_length.
Qed.

Lemma Timestamp_FromParts (t : Time) (p : list byte) :
  Timestamp (PutUint32 [x00; x00; x00; x00] (timeToCorrectedUTCTimestamp t) ++ p)
  = (Unix t - epochStamp) mod 2 ^ 32.
Proof.
  unfold Timestamp.
  change (firstn timestampLengthInBytes
            (PutUint32 [x00; x00; x00; x00] (timeToCorrectedUTCTimestamp t) ++ p))
    with (PutUint32 [x00; x00; x00; x00] (timeToCorrectedUTCTimestamp t)).
  rewrite Uint32_PutUint32, timeToCorrectedUTCTimestamp_mod.
  apply Z.mod_mod. lia.
Qed.

(** C4, as amended.  [FromParts] of a 16-byte payload succeeds; the
    timestamp of the identifier is the Unix seconds of the time less the
    epoch offset, modulo [2^32]; its time is that timestamp plus the epoch
    offset, in whole seconds; and this is the given time truncated to
    whole seconds when the time lies in the window of [2^32] seconds that
    starts at the epoch offset. *)
Theorem timestamp_correction (t : Time) (p : list byte) :
  length p = payloadLengthInBytes ->
  exists k : KSUID,
    FromParts t p = (k, None) /\
    Timestamp k = (Unix t - epochStamp) mod 2 ^ 32 /\
    KTime k = mkTime ((Unix t - epochStamp) mod 2 ^ 32 + epochStamp) 0 /\
    (epochStamp <= Unix t < epochStamp + 2 ^ 32 ->
       KTime k = truncateToSecond t).
Proof.
  intros Hp. eexists. split; [apply FromParts_ok; exact Hp|].
  assert (HT := Timestamp_FromParts t p).
  assert (HK : KTime (PutUint32 [x00; x00; x00; x00]
                        (timeToCorrectedUTCTimestamp t) ++ p)
               = mkTime ((Unix t - epochStamp) mod 2 ^ 32 + epochStamp) 0).
  { unfold KTime. rewrite HT. apply correctedUTCTimestampToTime_whole.
    apply Z.mod_pos_bound. lia. }
  split; [exact HT|]. split; [exact HK|].
  intros Hwin. rewrite HK. unfold truncateToSecond, Unix in *.
  rewrite Z.mod_small by lia. f_equal. lia.
Qed.

Lemma timestamp_correction_witness :
  exists k : KSUID,
    FromParts (mkTime 1500000000 123456789) (repeat x2a 16) = (k, None) /\
    Timestamp k = (1500000000 - epochStamp) mod 2 ^ 32 /\
    KTime k = mkTime ((1500000000 - epochStamp) mod 2 ^ 32 + epochStamp) 0 /\
    (epochStamp <= 1500000000 < epochStamp + 2 ^ 32 ->
       KTime k = mkTime 1500000000 0).
Proof.
  apply (timestamp_correction (mkTime 1500000000 123456789) (repeat x2a 16)).
  reflexivity.
Defined.

(** C4 as stated fails outside the window: the first second of 1970 comes
    back as a time [2^32] seconds later. *)
Lemma timestamp_correction_counterexample :
  FromParts (mkTime 0 0) (repeat x00 16)
    = ([xac; x8d; xb2; x00] ++ repeat x00 16, None) /\
  truncateToSecond (mkTime 0 0) = mkTime 0 0 /\
  KTime ([xac; x8d; xb2; x00] ++ repeat x00 16) = mkTime 4294967296 0 /\
  Z.eqb (unixSec (KTime ([xac; x8d; xb2; x00] ++ repeat x00 16)))
        (unixSec (truncateToSecond (mkTime 0 0))) = false.
Proof.
  split; [|split; [|split]]; vm_compute; reflexivity.
Qed.

(** C10. Decomposition round trip.  An identifier is rebuilt from its own
    time and payload: [FromParts] succeeds on them and returns it. *)
Theorem decomposition_roundtrip (k : KSUID) :
  length k = byteLength ->
  FromParts (KTime k) (Payload k) = (k, None).
Proof.
  intros Hk.
  do 4 (destruct k as [|? k]; [discriminate|]).
  assert (Hp : length k = payloadLengthInBytes).
  { unfold byteLength, timestampLengthInBytes in Hk. simpl in Hk. lia. }
  change (Payload (b :: b0 :: b1 :: b2 :: k)) with k.
  rewrite FromParts_ok by exact Hp.
  unfold KTime, Timestamp.
  change (firstn timestampLengthInBytes (b :: b0 :: b1 :: b2 :: k))
    with [b; b0; b1; b2].
  rewrite timestamp_of_time_of_timestamp by (apply Uint32_range; reflexivity).
  now rewrite PutUint32_Uint32.
Qed.

Lemma decomposition_roundtrip_witness :
  FromParts (KTime (repeat xff 20)) (Payload (repeat xff 20))
  = (repeat xff 20, None).
Proof.
  apply (decomposition_roundtrip (repeat xff 20)). reflexivity.
Defined.

End Parts.

(** ** Radix conversion *)

Section Radix.
Local Open Scope N_scope.

Variable base : N.
Hypothesis base_ge_2 : 2 <= base.

Lemma fold_value (ds : list N) (acc : N) :
  fold_left (fun a d => a * base + d) ds acc
  = acc * base ^ N.of_nat (length ds) + bigValue base ds.
Proof.
  unfold bigValue. revert acc.
  induction ds as [|d ds IH]; intros acc.
  - simpl. rewrite N.mul_1_r, N.add_0_r. reflexivity.
  - cbn [fold_left length]. rewrite (IH (acc * base + d)), (IH (0 * base + d)).
    rewrite Nat2N.inj_succ, N.pow_succ_r'. ring.
Qed.

Lemma bigValue_app (xs ys : list N) :
  bigValue base (xs ++ ys)
  = bigValue base xs * base ^ N.of_nat (length ys) + bigValue base ys.
Proof.
  unfold bigValue at 1. rewrite fold_left_app. apply fold_value.
Qed.

Lemma bigValue_cons (d : N) (ds : list N) :
  bigValue base (d :: ds) = d * base ^ N.of_nat (length ds) + bigValue base ds.
Proof.
  change (d :: ds) with ([d] ++ ds). rewrite bigValue_app. reflexivity.
Qed.

Lemma bigValue_zeros (p : nat) (ds : list N) :
  bigValue base (repeat 0 p ++ ds) = bigValue base ds.
Proof.
  induction p as [|p IH]; [reflexivity|].
  cbn [repeat app]. rewrite bigValue_cons, IH. lia.
Qed.

Lemma bigValue_bound (ds : list N) :
  Forall (fun d => d < base) ds -> bigValue base ds < base ^ N.of_nat (length ds).
Proof.
  induction 1 as [|d ds Hd _ IH].
  - reflexivity.
  - rewrite bigValue_cons. cbn [length].
    rewrite Nat2N.inj_succ, N.pow_succ_r'. nia.
Qed.

(** On digit lists of one length, the lexicographic order is the order
    of the numbers. *)
Lemma lexCompare_value (xs ys : list N) :
  length xs = length ys -> Forall (fun d => d < base) xs -> Forall (fun d => d < base) ys ->
  lexCompare xs ys = N.compare (bigValue base xs) (bigValue base ys).
Proof.
  revert ys. induction xs as [|x xs IH]; intros [|y ys] Hlen Hx Hy;
    try discriminate; [reflexivity|].
  injection Hlen as Hlen.
  inversion Hx as [|? ? Hxb Hxs]; subst. inversion Hy as [|? ? Hyb Hys]; subst.
  cbn [lexCompare]. rewrite !bigValue_cons, <- Hlen.
  pose proof (bigValue_bound xs Hxs) as Bx.
  pose proof (bigValue_bound ys Hys) as By. rewrite <- Hlen in By.
  set (P := base ^ N.of_nat (length xs)) in *.
  destruct (N.compare_spec x y) as [->|Hlt|Hgt].
  - rewrite (IH ys Hlen Hxs Hys).
    destruct (N.compare_spec (bigValue base xs) (bigValue base ys));
      symmetry; [apply N.compare_eq_iff | apply N.compare_lt_iff
                | apply N.compare_gt_iff]; nia.
  - symmetry. apply N.compare_lt_iff. nia.
  - symmetry. apply N.compare_gt_iff. nia.
Qed.

Lemma lexCompare_eq (xs ys : list N) : lexCompare xs ys = Eq -> xs = ys.
Proof.
  revert ys. induction xs as [|x xs IH]; intros [|y ys]; simpl;
    try discriminate; [reflexivity|].
  destruct (N.compare_spec x y) as [Hxy| |]; try discriminate.
  intros Hrest. f_equal; [exact Hxy | now apply IH].
Qed.

(** A number has one list of digits of a given length. *)
Lemma bigValue_inj (xs ys : list N) :
  length xs = length ys -> Forall (fun d => d < base) xs -> Forall (fun d => d < base) ys ->
  bigValue base xs = bigValue base ys -> xs = ys.
Proof.
  intros Hlen Hx Hy Hv. apply lexCompare_eq.
  rewrite (lexCompare_value xs ys Hlen Hx Hy), Hv. apply N.compare_refl.
Qed.

Lemma digitsLSF_value (fuel : nat) (n : N) :
  n < 2 ^ N.of_nat fuel -> bigValue base (rev (digitsLSF fuel base n)) = n.
Proof.
  revert n. induction fuel as [|fuel IH]; intros n Hn.
  - simpl in Hn. assert (n = 0) by lia. subst. reflexivity.
  - cbn [digitsLSF]. destruct (N.eqb_spec n 0) as [->|Hnz]; [reflexivity|].
    cbn [rev]. rewrite bigValue_app, IH.
    + cbn [length]. change (bigValue base [n mod base]) with (0 * base + n mod base).
      rewrite N.pow_1_r. pose proof (N.div_mod n base). lia.
    + rewrite Nat2N.inj_succ, N.pow_succ_r' in Hn.
      apply N.Div0.div_lt_upper_bound. nia.
Qed.

Lemma digitsLSF_below (fuel : nat) (n : N) : Forall (fun d => d < base) (digitsLSF fuel base n).
Proof.
  revert n. induction fuel as [|fuel IH]; intros n; cbn [digitsLSF].
  - constructor.
  - destruct (n =? 0); constructor; [|apply IH].
    apply N.mod_lt. lia.
Qed.

Lemma digitsLSF_length (fuel : nat) (n : N) (k : nat) :
  n < base ^ N.of_nat k -> (length (digitsLSF fuel base n) <= k)%nat.
Proof.
  revert n k. induction fuel as [|fuel IH]; intros n k Hn; cbn [digitsLSF].
  - simpl. lia.
  - destruct (N.eqb_spec n 0) as [->|Hnz]; [simpl; lia|].
    destruct k as [|k]; [simpl in Hn; lia|].
    cbn [length]. apply le_n_S, IH.
    rewrite Nat2N.inj_succ, N.pow_succ_r' in Hn.
    apply N.Div0.div_lt_upper_bound. exact Hn.
Qed.

Lemma bigDigits_value (n : N) : bigValue base (bigDigits base n) = n.
Proof.
  unfold bigDigits. apply digitsLSF_value.
  rewrite N2Nat.id. apply N.size_gt.
Qed.

Lemma bigDigits_below (n : N) : Forall (fun d => d < base) (bigDigits base n).
Proof.
  unfold bigDigits. apply Forall_rev, digitsLSF_below.
Qed.

Lemma bigDigits_length (n : N) (k : nat) :
  n < base ^ N.of_nat k -> (length (bigDigits base n) <= k)%nat.
Proof.
  intros H. unfold bigDigits. rewrite length_rev. now apply digitsLSF_length.
Qed.

End Radix.

(** ** The alphabet *)

Section Alphabet.
Local Open Scope N_scope.

Lemma below_cases (k : nat) (d : N) :
  d < N.of_nat k -> In d (map N.of_nat (seq 0 k)).
Proof.
  intros H. rewrite <- (N2Nat.id d). apply in_map, in_seq. lia.
Qed.

Lemma index_of_nth (c : byte) (l : list byte) (i : nat) :
  index_of c l = Some i -> nth i l x00 = c /\ (i < length l)%nat.
Proof.
  revert i. induction l as [|x l IH]; intros i; cbn [index_of]; [discriminate|].
  destruct (Byte.eqb c x) eqn:E.
  - intros H. injection H as <-. apply Byte.byte_dec_bl in E. subst.
    simpl. split; [reflexivity | lia].
  - destruct (index_of c l) as [j|]; [|discriminate].
    intros H. injection H as <-. destruct (IH j eq_refl) as [H1 H2].
    simpl. split; [exact H1 | lia].
Qed.

(** A character of the alphabet is the character of its digit. *)
Lemma base62Char_Value (c : byte) (d : N) :
  base62Value c = Some d -> base62Char d = c /\ d < 62.
Proof.
  unfold base62Value, base62Char.
  destruct (index_of c (list_byte_of_string base62Characters)) as [i|] eqn:E;
    [|discriminate].
  intros H. injection H as <-. apply index_of_nth in E. destruct E as [E1 E2].
  rewrite Nat2N.id. split; [exact E1|].
  change (length (list_byte_of_string base62Characters)) with 62%nat in E2. lia.
Qed.

(** The digit of the character of a digit is that digit. *)
Lemma base62Value_Char (d : N) : d < 62 -> base62Value (base62Char d) = Some d.
Proof.
  intros H. apply (below_cases 62) in H.
  assert (Hall : forallb
            (fun d => match base62Value (base62Char d) with
                      | Some e => e =? d
                      | None => false
                      end) (map N.of_nat (seq 0 62)) = true)
    by (vm_compute; reflexivity).
  rewrite forallb_forall in Hall. specialize (Hall d H).
  destruct (base62Value (base62Char d)) as [e|]; [|discriminate].
  apply N.eqb_eq in Hall. now subst.
Qed.

(** The alphabet is in the order of the byte values of its characters. *)
Lemma base62Char_compare (d e : N) :
  d < 62 -> e < 62 ->
  N.compare (Byte.to_N (base62Char d)) (Byte.to_N (base62Char e)) = N.compare d e.
Proof.
  intros Hd He. apply (below_cases 62) in Hd, He.
  assert (Hall : forallb (fun d => forallb (fun e =>
            match N.compare (Byte.to_N (base62Char d)) (Byte.to_N (base62Char e)),
                  N.compare d e with
            | Eq, Eq | Lt, Lt | Gt, Gt => true
            | _, _ => false
            end) (map N.of_nat (seq 0 62))) (map N.of_nat (seq 0 62)) = true)
    by (vm_compute; reflexivity).
  rewrite forallb_forall in Hall. specialize (Hall d Hd).
  rewrite forallb_forall in Hall. specialize (Hall e He).
  destruct (N.compare (Byte.to_N (base62Char d)) (Byte.to_N (base62Char e))),
    (N.compare d e); congruence.
Qed.

Lemma base62Values_Chars (ds : list N) :
  Forall (fun d => d < 62) ds -> base62Values (map base62Char ds) = Some ds.
Proof.
  induction 1 as [|d ds Hd _ IH]; [reflexivity|].
  cbn [map base62Values]. now rewrite base62Value_Char, IH.
Qed.

Lemma base62Chars_Values (cs : list byte) (ds : list N) :
  base62Values cs = Some ds ->
  map base62Char ds = cs /\ Forall (fun d => d < 62) ds /\ length ds = length cs.
Proof.
  revert ds. induction cs as [|c cs IH]; intros ds; cbn [base62Values].
  - intros H. injection H as <-. repeat constructor.
  - destruct (base62Value c) as [d|] eqn:Ec; [|discriminate].
    destruct (base62Values cs) as [ds'|]; [|discriminate].
    intros H. injection H as <-.
    apply base62Char_Value in Ec. destruct Ec as [Ec Hd].
    destruct (IH ds' eq_refl) as (H1 & H2 & H3).
    cbn [map length]. split; [congruence|]. split; [now constructor | congruence].
Qed.

Lemma bytes_Compare_base62 (ds es : list N) :
  Forall (fun d => d < 62) ds -> Forall (fun d => d < 62) es ->
  bytes_Compare (map base62Char ds) (map base62Char es) = cmpZ (lexCompare ds es).
Proof.
  intros Hd. revert es. induction Hd as [|d ds Hd _ IH]; intros es He.
  - destruct es; reflexivity.
  - destruct He as [|e es He Hes]; [reflexivity|].
    cbn [map bytes_Compare lexCompare].
    rewrite (base62Char_compare d e Hd He).
    destruct (N.compare d e); [now apply IH | reflexivity | reflexivity].
Qed.

Lemma bytes_Compare_lex (a b : list byte) :
  bytes_Compare a b = cmpZ (lexCompare (map Byte.to_N a) (map Byte.to_N b)).
Proof.
  revert b. induction a as [|x a IH]; intros [|y b]; try reflexivity.
  cbn [map bytes_Compare lexCompare].
  destruct (N.compare (Byte.to_N x) (Byte.to_N y)); [apply IH | reflexivity ..].
Qed.

Lemma to_N_below (k : list byte) : Forall (fun d => d < 256) (map Byte.to_N k).
Proof.
  apply Forall_map, Forall_forall. intros b _.
  pose proof (Byte.to_N_bounded b). lia.
Qed.

Lemma to_N_byte_of_N (ds : list N) :
  Forall (fun d => d < 256) ds -> map Byte.to_N (map byte_of_N ds) = ds.
Proof.
  induction 1 as [|d ds Hd _ IH]; [reflexivity|].
  cbn [map]. rewrite IH. f_equal. unfold byte_of_N.
  destruct (Byte.of_N d) as [b|] eqn:E.
  - now apply Byte.to_of_N.
  - apply Byte.of_N_None_iff in E. lia.
Qed.

Lemma map_to_N_inj (a b : list byte) :
  map Byte.to_N a = map Byte.to_N b -> a = b.
Proof.
  revert b. induction a as [|x a IH]; intros [|y b]; try discriminate;
    [reflexivity|].
  cbn [map]. intros H. injection H as Hxy Hab. f_equal; [|now apply IH].
  assert (E : Byte.of_N (Byte.to_N x) = Byte.of_N (Byte.to_N y)) by congruence.
  rewrite !Byte.of_to_N in E. congruence.
Qed.

End Alphabet.

(** ** Slices *)

Section Slices.

Lemma firstn_exact (l r : list byte) : firstn (length l) (l ++ r) = l.
Proof.
  rewrite firstn_app, firstn_all, Nat.sub_diag. simpl. apply app_nil_r.
Qed.

Lemma skipn_exact (l r : list byte) : skipn (length l) (l ++ r) = r.
Proof.
  rewrite skipn_app, skipn_all, Nat.sub_diag. reflexivity.
Qed.

Lemma copy_app_l (m r z : list byte) :
  length m = length z -> copy (m ++ r) z = z ++ r.
Proof.
  intros H. unfold copy. rewrite firstn_all2 by (rewrite length_app; lia).
  now rewrite <- H, skipn_exact.
Qed.

Lemma copy_prefix (m z r : list byte) :
  length m = length z -> copy m (z ++ r) = z.
Proof.
  intros H. unfold copy. rewrite H, firstn_exact.
  rewrite skipn_all2 by (rewrite length_app; lia). apply app_nil_r.
Qed.

Lemma copy_shorter (d xs : list byte) :
  length xs <= length d -> copy d xs = xs ++ skipn (length xs) d.
Proof.
  intros H. unfold copy. now rewrite firstn_all2 by exact H.
Qed.

Lemma firstn_repeat_le (x : byte) (n m : nat) :
  n <= m -> firstn n (repeat x m) = repeat x n.
Proof.
  revert m. induction n as [|n IH]; intros [|m] H; simpl; try lia;
    try reflexivity.
  f_equal. apply IH. lia.
Qed.

Lemma length_elems (s : slice) : wf_slice s -> length (elems s) = len s.
Proof.
  unfold wf_slice, cap, elems. intros H. rewrite length_firstn. lia.
Qed.

Lemma len_go_append (s : slice) (xs : list byte) :
  len (fst (go_append s xs)) = len s + length xs.
Proof.
  unfold go_append. destruct (_ <=? _); reflexivity.
Qed.

Lemma wf_go_append (s : slice) (xs : list byte) :
  wf_slice s -> wf_slice (fst (go_append s xs)).
Proof.
  intros H. unfold go_append.
  destruct (Nat.leb_spec (len s + length xs) (cap s)) as [Hle|Hgt];
    unfold wf_slice, cap; cbn [fst data len].
  - rewrite length_copy_at. exact Hle.
  - rewrite length_app, length_elems by exact H. lia.
Qed.

Lemma elems_go_append (s : slice) (xs : list byte) :
  wf_slice s -> elems (fst (go_append s xs)) = elems s ++ xs.
Proof.
  intros H. pose proof (length_elems s H) as HE. unfold go_append.
  destruct (Nat.leb_spec (len s + length xs) (cap s)) as [Hle|Hgt];
    unfold elems at 1; cbn [fst data len].
  - unfold copy_at. fold (elems s).
    rewrite copy_shorter by (rewrite length_skipn; unfold cap in Hle; lia).
    rewrite app_assoc, <- HE, <- length_app. apply firstn_exact.
  - rewrite <- HE, <- length_app. apply firstn_all.
Qed.

(** Within capacity [append] writes into the array it was given. *)
Lemma go_append_in_place (s : slice) (xs : list byte) :
  wf_slice s -> len s + length xs <= cap s ->
  snd (go_append s xs) = elems s ++ xs ++ skipn (len s + length xs) (data s).
Proof.
  intros H Hle. unfold go_append.
  destruct (Nat.leb_spec (len s + length xs) (cap s)); [|lia]. cbn [snd].
  unfold copy_at. fold (elems s). f_equal.
  rewrite copy_shorter by (rewrite length_skipn; unfold cap in Hle; lia).
  f_equal. rewrite skipn_skipn. f_equal. lia.
Qed.

Lemma len_slice_copy_at (s : slice) (off : nat) (src : list byte) :
  len (slice_copy_at s off src) = len s.
Proof. reflexivity. Qed.

Lemma elems_slice_copy_at (s : slice) (off : nat) (src : list byte) :
  wf_slice s -> elems (slice_copy_at s off src) = copy_at (elems s) off src.
Proof.
  intros H. unfold slice_copy_at, elems at 1. cbn [data len].
  rewrite <- (length_elems s H) at 1.
  rewrite <- (length_copy_at (elems s) off src). apply firstn_exact.
Qed.

Lemma wf_slice_copy_at (s : slice) (off : nat) (src : list byte) :
  wf_slice s -> wf_slice (slice_copy_at s off src).
Proof.
  intros H. unfold wf_slice, cap, slice_copy_at. cbn [data len].
  rewrite length_app, length_copy_at, length_elems by exact H. lia.
Qed.

End Slices.

(** ** The text form *)

Section Encoding.

(** The two copies of [Append] that move the digits to the right and put
    the padding in front of them. *)
Lemma pad_in_front (E cs zs : list byte) :
  copy_at (copy_at ((E ++ cs) ++ zs) (length E + length zs)
             (skipn (length E) ((E ++ cs) ++ zs)))
    (length E) zs
  = E ++ zs ++ cs.
Proof.
  rewrite <- app_assoc. rewrite skipn_exact.
  unfold copy_at at 2.
  rewrite firstn_app_2.
  assert (Hs : skipn (length E + length zs) (E ++ cs ++ zs)
               = skipn (length zs) (cs ++ zs)).
  { rewrite skipn_app, skipn_all2 by lia.
    replace (length E + length zs - length E) with (length zs) by lia.
    reflexivity. }
  rewrite Hs.
  assert (Hc : copy (skipn (length zs) (cs ++ zs)) (cs ++ zs) = cs).
  { apply copy_prefix. rewrite length_skipn, length_app. lia. }
  rewrite Hc. unfold copy_at. rewrite <- app_assoc.
  rewrite firstn_exact, skipn_exact. f_equal.
  apply copy_app_l. rewrite length_firstn, length_app. lia.
Qed.

(** What [Append] appends: the encoding, with zero digits in front of it
    up to the fixed width. *)
Lemma Append_elems (i : KSUID) (b : slice) :
  wf_slice b ->
  elems (Append i b)
  = elems b
    ++ repeat "0"%byte (stringEncodedLength - length (encodeBase62 i))
    ++ encodeBase62 i.
Proof.
  intros Hb. unfold Append.
  set (b0 := if cap b <? stringEncodedLength then _ else b).
  assert (Hb0 : wf_slice b0 /\ elems b0 = elems b /\ len b0 = len b).
  { subst b0. destruct (cap b <? stringEncodedLength); [|auto].
    assert (Hc : wf_slice (make (len b) (len b + stringEncodedLength))).
    { unfold wf_slice, cap, make. cbn [data len]. rewrite repeat_length. lia. }
    split; [apply wf_slice_copy_at, Hc|]. split; [|reflexivity].
    rewrite elems_slice_copy_at by exact Hc. unfold copy_at.
    cbn [firstn skipn app]. apply copy_same_length.
    now rewrite !length_elems. }
  destruct Hb0 as (W0 & E0 & L0). clearbody b0.
  unfold appendEncodeBase62. set (cs := encodeBase62 i).
  set (e := fst (go_append b0 cs)).
  assert (We : wf_slice e) by now apply wf_go_append.
  assert (Ee : elems e = elems b ++ cs)
    by (subst e; now rewrite elems_go_append, E0).
  assert (Le : len e = len b0 + length cs) by apply len_go_append.
  assert (HE : length (elems b) = len b0)
    by (rewrite length_elems by exact Hb; lia).
  rewrite Le.
  replace (Z.of_nat stringEncodedLength
           - (Z.of_nat (len b0 + length cs) - Z.of_nat (len b0)))%Z
    with (Z.of_nat stringEncodedLength - Z.of_nat (length cs))%Z by lia.
  destruct (Z.ltb_spec 0 (Z.of_nat stringEncodedLength - Z.of_nat (length cs)))
    as [Hpad|Hpad].
  - replace (Z.to_nat (Z.of_nat stringEncodedLength - Z.of_nat (length cs)))
      with (stringEncodedLength - length cs) by lia.
    unfold zeroes. rewrite firstn_repeat_le by lia.
    set (zs := repeat "0"%byte (stringEncodedLength - length cs)).
    assert (LZ : length zs = stringEncodedLength - length cs)
      by apply repeat_length.
    assert (W1 : wf_slice (fst (go_append e zs))) by now apply wf_go_append.
    assert (E1 : elems (fst (go_append e zs)) = (elems b ++ cs) ++ zs)
      by now rewrite elems_go_append, Ee.
    rewrite elems_slice_copy_at by now apply wf_slice_copy_at.
    rewrite elems_slice_copy_at by exact W1.
    rewrite E1, <- HE, <- LZ. apply pad_in_front.
  - replace (stringEncodedLength - length cs) with 0 by lia.
    exact Ee.
Qed.

(** The digits of the text form: those of the number, behind zeros. *)
Lemma KString_digits (i : KSUID) :
  KString i
  = string_of_list_byte
      (map base62Char
         (repeat 0%N (stringEncodedLength - length (bigDigits 62 (ksuidValue i)))
          ++ bigDigits 62 (ksuidValue i))).
Proof.
  unfold KString. rewrite Append_elems.
  - unfold make, elems at 1. cbn [len data firstn app].
    unfold encodeBase62. fold (ksuidValue i).
    now rewrite length_map, map_app, map_repeat.
  - unfold wf_slice, cap, make. cbn [len data]. lia.
Qed.

End Encoding.

(** ** Parsing *)

Section Decoding.

Lemma skipn_repeat_sub (x : byte) (n m : nat) :
  skipn n (repeat x m) = repeat x (m - n).
Proof.
  revert m. induction n as [|n IH]; intros [|m]; simpl; try reflexivity.
  apply IH.
Qed.

Lemma length_snd_go_append (s : slice) (xs : list byte) :
  length (snd (go_append s xs)) = cap s.
Proof.
  unfold go_append. destruct (_ <=? _); cbn [snd]; [|reflexivity].
  apply length_copy_at.
Qed.

(** After the length check, [Parse] returns what [FromBytes] makes of a
    20-byte array, or does not return: it has no error to give. *)
Lemma Parse_27 (s : string) :
  String.length s = stringEncodedLength ->
  Parse s = Panic \/ exists k, length k = byteLength /\ Parse s = Ret (k, None).
Proof.
  intros Hs. unfold Parse. rewrite Hs, Nat.eqb_refl. cbv [negb].
  destruct (appendDecodeBase62 _ _) as [[decoded dst]|] eqn:E; [right|now left].
  assert (Hd : length dst = byteLength).
  { unfold appendDecodeBase62 in E. destruct (decodeBase62 _); [|discriminate].
    injection E as E. apply (f_equal snd) in E. cbn [snd] in E. subst dst.
    rewrite length_snd_go_append. reflexivity. }
  eexists. split; [|rewrite FromBytes_ok; [reflexivity|]];
    (destruct (_ <? _)%Z; [now rewrite length_copy, length_copy_at | exact Hd]).
Qed.

(** On digits whose number fits in 20 bytes, [Parse] gives the bytes of the
    number behind zero bytes. *)
Lemma Parse_digits (s : string) (ds : list N) :
  String.length s = stringEncodedLength ->
  base62Values (list_byte_of_string s) = Some ds ->
  length (bigDigits 256 (bigValue 62 ds)) <= byteLength ->
  Parse s
  = Ret (repeat x00 (byteLength - length (bigDigits 256 (bigValue 62 ds)))
           ++ map byte_of_N (bigDigits 256 (bigValue 62 ds)), None).
Proof.
  intros Hs Hds Hlen. unfold Parse. rewrite Hs, Nat.eqb_refl. cbv [negb].
  rewrite copy_same_length
    by now rewrite length_list_byte_of_string, repeat_length.
  unfold appendDecodeBase62, decodeBase62. rewrite Hds.
  set (bs := map byte_of_N (bigDigits 256 (bigValue 62 ds))).
  assert (Lbs : length bs = length (bigDigits 256 (bigValue 62 ds)))
    by apply length_map.
  rewrite <- Lbs in *.
  set (s0 := mkSlice (repeat x00 byteLength) 0).
  assert (W0 : wf_slice s0) by (unfold wf_slice; cbn; lia).
  destruct (go_append s0 bs) as [decoded dst] eqn:G.
  assert (Hdec : len decoded = length bs).
  { change decoded with (fst (decoded, dst)). rewrite <- G.
    now rewrite len_go_append. }
  assert (Hdst : dst = bs ++ repeat x00 (byteLength - length bs)).
  { change dst with (snd (decoded, dst)). rewrite <- G.
    rewrite go_append_in_place;
      [|exact W0 | unfold cap; cbn [data len s0]; rewrite repeat_length; lia].
    cbn [elems len data s0 firstn app plus].
    now rewrite skipn_repeat_sub. }
  rewrite Hdec. f_equal.
  set (zs := repeat x00 (byteLength - length bs)) in *.
  assert (LZ : length zs = byteLength - length bs) by apply repeat_length.
  destruct (Z.ltb_spec 0 (Z.of_nat byteLength - Z.of_nat (length bs)))
    as [Hpad|Hpad].
  - replace (Z.to_nat (Z.of_nat byteLength - Z.of_nat (length bs)))
      with (byteLength - length bs) by lia.
    rewrite firstn_repeat_le by lia. fold zs. rewrite <- LZ.
    assert (Hshift : copy_at dst (length zs) dst = firstn (length zs) dst ++ bs).
    { unfold copy_at. f_equal. subst dst. apply copy_prefix.
      rewrite length_skipn, length_app. lia. }
    rewrite Hshift, copy_app_l.
    + apply FromBytes_ok. rewrite length_app. lia.
    + rewrite length_firstn. subst dst. rewrite length_app. lia.
  - assert (Hz : byteLength - length bs = 0) by lia.
    subst zs. rewrite Hz in *. cbn [repeat app] in *.
    rewrite app_nil_r in Hdst. subst dst.
    apply FromBytes_ok. lia.
Qed.

End Decoding.

(** ** The codec on identifiers *)

Section Codec.
Local Open Scope N_scope.

Lemma base62_ge_2 : 2 <= 62.
Proof. lia. Qed.

Lemma base256_ge_2 : 2 <= 256.
Proof. lia. Qed.

(** Digits behind zeros, up to a width they fit in. *)
Lemma padded_digits (base : N) (w : nat) (n : N) :
  2 <= base -> (length (bigDigits base n) <= w)%nat ->
  length (repeat 0 (w - length (bigDigits base n)) ++ bigDigits base n) = w /\
  Forall (fun d => d < base)
    (repeat 0 (w - length (bigDigits base n)) ++ bigDigits base n) /\
  bigValue base (repeat 0 (w - length (bigDigits base n)) ++ bigDigits base n)
  = n.
Proof.
  intros Hb Hw. split; [|split].
  - rewrite length_app, repeat_length. lia.
  - apply Forall_app. split; [|now apply bigDigits_below].
    apply Forall_forall. intros d Hd. apply repeat_spec in Hd. lia.
  - now rewrite bigValue_zeros, bigDigits_value.
Qed.

Lemma ksuidValue_bound (k : KSUID) :
  length k = byteLength -> ksuidValue k < 256 ^ 20.
Proof.
  intros Hk. unfold ksuidValue.
  pose proof (bigValue_bound 256 base256_ge_2 _ (to_N_below k)) as H.
  rewrite length_map, Hk in H. exact H.
Qed.

(** 160 bits take no more than 27 base-62 digits. *)
Lemma digits62_fit (n : N) :
  n < 256 ^ 20 -> (length (bigDigits 62 n) <= stringEncodedLength)%nat.
Proof.
  intros H. apply bigDigits_length; [exact base62_ge_2|].
  eapply N.lt_trans; [exact H|]. vm_compute. reflexivity.
Qed.

Lemma digits256_fit (n : N) :
  n < 256 ^ 20 -> (length (bigDigits 256 n) <= byteLength)%nat.
Proof.
  intros H. apply bigDigits_length; [exact base256_ge_2|]. exact H.
Qed.

(** The identifier [Parse] builds from a number below [2^160]. *)
Lemma padded_bytes (n : N) (k : KSUID) :
  n < 256 ^ 20 ->
  k = repeat x00 (byteLength - length (bigDigits 256 n))
      ++ map byte_of_N (bigDigits 256 n) ->
  length k = byteLength /\ ksuidValue k = n.
Proof.
  intros Hn ->. pose proof (digits256_fit n Hn) as Hfit.
  destruct (padded_digits 256 byteLength n base256_ge_2 Hfit) as (L & F & V).
  split.
  - rewrite length_app, repeat_length, length_map. lia.
  - unfold ksuidValue. rewrite map_app, map_repeat.
    rewrite to_N_byte_of_N by now apply bigDigits_below.
    exact V.
Qed.

(** An identifier is determined by its number. *)
Lemma ksuidValue_inj (a b : KSUID) :
  length a = byteLength -> length b = byteLength ->
  ksuidValue a = ksuidValue b -> a = b.
Proof.
  intros Ha Hb Hv. apply map_to_N_inj.
  apply (bigValue_inj 256 base256_ge_2); try apply to_N_below.
  - rewrite !length_map. congruence.
  - exact Hv.
Qed.

(** The text form, read back as digits, is the number of the identifier
    in 27 digits. *)
Lemma KString_values (k : KSUID) :
  length k = byteLength ->
  exists fd : list N,
    list_byte_of_string (KString k) = map base62Char fd /\
    base62Values (list_byte_of_string (KString k)) = Some fd /\
    length fd = stringEncodedLength /\
    Forall (fun d => d < 62) fd /\
    bigValue 62 fd = ksuidValue k.
Proof.
  intros Hk.
  pose proof (digits62_fit _ (ksuidValue_bound k Hk)) as Hfit.
  destruct (padded_digits 62 stringEncodedLength _ base62_ge_2 Hfit)
    as (L & F & V).
  eexists. rewrite KString_digits, list_byte_of_string_of_list_byte.
  split; [reflexivity|]. split; [now apply base62Values_Chars|].
  split; [exact L|]. split; [exact F | exact V].
Qed.

(** A string of the alphabet, as digits. *)
Lemma isBase62_values (s : string) :
  isBase62 s = true ->
  exists ds : list N,
    base62Values (list_byte_of_string s) = Some ds /\
    list_byte_of_string s = map base62Char ds /\
    length ds = String.length s /\
    Forall (fun d => d < 62) ds.
Proof.
  unfold isBase62.
  destruct (base62Values (list_byte_of_string s)) as [ds|] eqn:E;
    [|discriminate].
  intros _. exists ds. apply base62Chars_Values in E.
  destruct E as (E1 & E2 & E3).
  rewrite length_list_byte_of_string in E3. auto.
Qed.

Lemma maxStringEncoded_values :
  base62Values (list_byte_of_string maxStringEncoded)
  = Some (bigDigits 62 (256 ^ 20 - 1)).
Proof. vm_compute. reflexivity. Qed.

(** Strings of the alphabet of one length compare as their numbers. *)
Lemma strings_Compare_values (s t : string) (ds dt : list N) :
  base62Values (list_byte_of_string s) = Some ds ->
  base62Values (list_byte_of_string t) = Some dt ->
  String.length s = String.length t ->
  strings_Compare s t = cmpZ (N.compare (bigValue 62 ds) (bigValue 62 dt)).
Proof.
  intros Hs Ht Hlen.
  apply base62Chars_Values in Hs, Ht.
  destruct Hs as (Hs1 & Hs2 & Hs3). destruct Ht as (Ht1 & Ht2 & Ht3).
  rewrite length_list_byte_of_string in Hs3, Ht3.
  unfold strings_Compare. rewrite <- Hs1, <- Ht1.
  rewrite bytes_Compare_base62 by assumption.
  rewrite (lexCompare_value 62 base62_ge_2) by (assumption || congruence).
  reflexivity.
Qed.

(** No string of the alphabet above [maxStringEncoded] is below [2^160]. *)
Lemma below_max_fits (s : string) (ds : list N) :
  String.length s = stringEncodedLength ->
  base62Values (list_byte_of_string s) = Some ds ->
  (strings_Compare s maxStringEncoded <= 0)%Z <-> bigValue 62 ds < 256 ^ 20.
Proof.
  intros Hlen Hds.
  rewrite (strings_Compare_values s maxStringEncoded ds _ Hds
             maxStringEncoded_values) by exact Hlen.
  rewrite (bigDigits_value 62 base62_ge_2).
  destruct (N.compare_spec (bigValue 62 ds) (256 ^ 20 - 1)) as [H|H|H];
    cbn [cmpZ]; lia.
Qed.

End Codec.

(** ** Round trip, order and width *)

Section RoundTrip.

Lemma Parse_KString (k : KSUID) :
  length k = byteLength -> Parse (KString k) = Ret (k, None).
Proof.
  intros Hk.
  destruct (KString_values k Hk) as (fd & _ & Hfd & L & F & V).
  pose proof (ksuidValue_bound k Hk) as Hb.
  assert (Hs : String.length (KString k) = stringEncodedLength).
  { rewrite KString_digits, length_string_of_list_byte, length_map.
    apply (padded_digits 62 stringEncodedLength _ base62_ge_2).
    now apply digits62_fit. }
  rewrite (Parse_digits _ fd Hs Hfd); rewrite V;
    [|now apply digits256_fit].
  f_equal. f_equal.
  destruct (padded_bytes (ksuidValue k) _ Hb eq_refl) as [L' V'].
  now apply ksuidValue_inj.
Qed.

Lemma KString_Parse (s : string) :
  String.length s = stringEncodedLength ->
  isBase62 s = true ->
  (strings_Compare s maxStringEncoded <= 0)%Z ->
  exists k : KSUID, Parse s = Ret (k, None) /\ KString k = s.
Proof.
  intros Hlen Hvalid Hmax.
  destruct (isBase62_values s Hvalid) as (ds & Hds & Hchars & L & F).
  apply (below_max_fits s ds Hlen Hds) in Hmax.
  eexists. split.
  - apply (Parse_digits s ds Hlen Hds). now apply digits256_fit.
  - destruct (padded_bytes (bigValue 62 ds) _ Hmax eq_refl) as [L' V'].
    rewrite KString_digits, V'.
    pose proof (digits62_fit _ Hmax) as Hfit.
    destruct (padded_digits 62 stringEncodedLength _ base62_ge_2 Hfit)
      as (L2 & F2 & V2).
    rewrite (bigValue_inj 62 base62_ge_2 _ ds) by (assumption || congruence).
    rewrite <- Hchars. apply string_of_list_byte_of_string.
Qed.

(** C1, as amended.  Parsing the text form of an identifier gives the
    identifier back; and the text form of what [Parse] makes of a
    27-character string of the alphabet is that string, when the string is
    not above [maxStringEncoded]. *)
Theorem base62_roundtrip :
  (forall k : KSUID, length k = byteLength ->
     Parse (KString k) = Ret (k, None)) /\
  (forall s : string,
     String.length s = stringEncodedLength ->
     isBase62 s = true ->
     (strings_Compare s maxStringEncoded <= 0)%Z ->
     exists k : KSUID, Parse s = Ret (k, None) /\ KString k = s).
Proof.
  split; [exact Parse_KString | exact KString_Parse].
Qed.

Lemma base62_roundtrip_witness :
  Parse (KString (repeat x2a 20)) = Ret (repeat x2a 20, None) /\
  exists k : KSUID,
    Parse "0ujtsYcgvSTl8PAuAdqWYSMnLOv" = Ret (k, None) /\
    KString k = "0ujtsYcgvSTl8PAuAdqWYSMnLOv"%string.
Proof.
  destruct base62_roundtrip as [H1 H2]. split.
  - apply (H1 (repeat x2a 20)). reflexivity.
  - apply (H2 "0ujtsYcgvSTl8PAuAdqWYSMnLOv"%string);
      [reflexivity | reflexivity | vm_compute; discriminate].
Defined.

(** C1 as stated fails above [maxStringEncoded]: twenty bytes cannot hold
    the number of 27 letters [z], and the text form of what [Parse]
    returns is another string. *)
Lemma base62_roundtrip_counterexample :
  String.length "zzzzzzzzzzzzzzzzzzzzzzzzzzz" = stringEncodedLength /\
  isBase62 "zzzzzzzzzzzzzzzzzzzzzzzzzzz" = true /\
  Parse "zzzzzzzzzzzzzzzzzzzzzzzzzzz" = Ret (Nil, None) /\
  KString Nil = "000000000000000000000000000"%string /\
  String.eqb (KString Nil) "zzzzzzzzzzzzzzzzzzzzzzzzzzz" = false.
Proof.
  repeat (split; [vm_compute; reflexivity|]). vm_compute. reflexivity.
Qed.

(** No identifier has a text form above [maxStringEncoded], whatever
    [Parse] returns there. *)
Lemma KString_le_max (k : KSUID) :
  length k = byteLength ->
  (strings_Compare (KString k) maxStringEncoded <= 0)%Z.
Proof.
  intros Hk.
  destruct (KString_values k Hk) as (fd & _ & Hfd & L & F & V).
  apply (below_max_fits _ fd).
  - rewrite <- L, <- length_list_byte_of_string.
    apply base62Chars_Values in Hfd. symmetry. apply Hfd.
  - exact Hfd.
  - rewrite V. now apply ksuidValue_bound.
Qed.

(** [Append] appends the text form of the identifier to the slice. *)
Lemma Append_String (i : KSUID) (b : slice) :
  wf_slice b ->
  elems (Append i b) = elems b ++ list_byte_of_string (KString i).
Proof.
  intros Hb. rewrite (Append_elems i b Hb). f_equal.
  unfold KString. rewrite list_byte_of_string_of_list_byte, Append_elems.
  - reflexivity.
  - unfold wf_slice, cap, make. cbn [len data]. lia.
Qed.

Lemma Append_String_witness :
  elems (Append Nil (mkSlice (list_byte_of_string "id=") 3))
  = list_byte_of_string "id=" ++ list_byte_of_string (KString Nil).
Proof.
  apply (Append_String Nil (mkSlice (list_byte_of_string "id=") 3)).
  unfold wf_slice. cbn. lia.
Defined.

Lemma KString_le_max_witness :
  (strings_Compare (KString (repeat xff 20)) maxStringEncoded <= 0)%Z.
Proof.
  apply (KString_le_max (repeat xff 20)). reflexivity.
Defined.

(** C2. Order preservation.  [Compare] of two identifiers is the
    comparison of their text forms, so the bytes of one are at most those
    of the other exactly when its text form is at most the other's. *)
Theorem order_preservation (a b : KSUID) :
  length a = byteLength -> length b = byteLength ->
  Compare a b = strings_Compare (KString a) (KString b) /\
  ((Compare a b <= 0)%Z <-> (strings_Compare (KString a) (KString b) <= 0)%Z).
Proof.
  intros Ha Hb.
  assert (H : Compare a b = strings_Compare (KString a) (KString b)).
  { destruct (KString_values a Ha) as (fa & _ & Hfa & La & Fa & Va).
    destruct (KString_values b Hb) as (fb & _ & Hfb & Lb & Fb & Vb).
    rewrite (strings_Compare_values _ _ fa fb Hfa Hfb).
    - rewrite Va, Vb. unfold Compare. rewrite bytes_Compare_lex.
      rewrite (lexCompare_value 256 base256_ge_2); try apply to_N_below.
      + reflexivity.
      + rewrite !length_map. congruence.
    - apply base62Chars_Values in Hfa, Hfb.
      rewrite <- !length_list_byte_of_string.
      destruct Hfa as (_ & _ & <-). destruct Hfb as (_ & _ & <-). congruence. }
  split; [exact H|]. now rewrite H.
Qed.

Lemma order_preservation_witness :
  Compare (repeat x01 20) (repeat x02 20)
    = strings_Compare (KString (repeat x01 20)) (KString (repeat x02 20)) /\
  ((Compare (repeat x01 20) (repeat x02 20) <= 0)%Z <->
   (strings_Compare (KString (repeat x01 20)) (KString (repeat x02 20)) <= 0)%Z).
Proof.
  apply (order_preservation (repeat x01 20) (repeat x02 20)); reflexivity.
Defined.

(** C3. Fixed width.  The text form of an identifier has 27 characters;
    that of the zero identifier is 27 zeros and that of the identifier of
    twenty bytes [0xFF] is [maxStringEncoded]; and what [Parse] returns
    without error has 20 bytes. *)
Theorem fixed_width :
  (forall k : KSUID, length k = byteLength ->
     String.length (KString k) = stringEncodedLength) /\
  KString Nil = "000000000000000000000000000"%string /\
  KString (repeat xff byteLength) = maxStringEncoded /\
  (forall (s : string) (k : KSUID),
     Parse s = Ret (k, None) -> length k = byteLength).
Proof.
  split; [|split; [|split]].
  - intros k Hk.
    rewrite KString_digits, length_string_of_list_byte, length_map.
    apply (padded_digits 62 stringEncodedLength _ base62_ge_2).
    apply digits62_fit. now apply ksuidValue_bound.
  - vm_compute. reflexivity.
  - vm_compute. reflexivity.
  - intros s k H.
    destruct (Nat.eq_dec (String.length s) stringEncodedLength) as [Hs|Hs].
    + destruct (Parse_27 s Hs) as [HP|(k' & Hk' & HP)]; rewrite HP in H.
      * discriminate.
      * injection H as <-. exact Hk'.
    + unfold Parse in H. apply Nat.eqb_neq in Hs. rewrite Hs in H.
      discriminate.
Qed.

Lemma fixed_width_witness :
  String.length (KString (repeat x2a 20)) = stringEncodedLength /\
  length (repeat x2a 20) = byteLength.
Proof.
  destruct fixed_width as (H1 & _ & _ & H4). split.
  - apply (H1 (repeat x2a 20)). reflexivity.
  - apply (H4 (KString (repeat x2a 20))). vm_compute. reflexivity.
Defined.

(** C5, as amended.  [Parse] has no invalid-character error: on a
    27-character string, whatever its characters, it returns no error, and
    the only error it ever returns is the string-size error. *)
Theorem invalid_character (s : string) :
  (String.length s = stringEncodedLength -> returns_error (Parse s) = false) /\
  (forall (k : KSUID) (e : error), Parse s = Ret (k, Some e) -> e = errStrSize).
Proof.
  split.
  - intros Hs. destruct (Parse_27 s Hs) as [HP|(k & _ & HP)]; now rewrite HP.
  - intros k e H.
    destruct (Nat.eq_dec (String.length s) stringEncodedLength) as [Hs|Hs].
    + destruct (Parse_27 s Hs) as [HP|(k' & _ & HP)]; rewrite HP in H;
        discriminate.
    + unfold Parse in H. apply Nat.eqb_neq in Hs. rewrite Hs in H.
      cbv [negb] in H. congruence.
Qed.

Lemma invalid_character_witness :
  returns_error (Parse "!00000000000000000000000000") = false /\
  exists e : error, Parse "short" = Ret (Nil, Some e) /\ e = errStrSize.
Proof.
  destruct (invalid_character "!00000000000000000000000000") as [H1 _].
  destruct (invalid_character "short") as [_ H2].
  split.
  - apply H1. reflexivity.
  - eexists. split; [reflexivity|]. apply (H2 Nil). reflexivity.
Defined.

(** C5 as stated fails: a 27-character string with a character outside
    the alphabet is not answered with an error. *)
Lemma invalid_character_counterexample :
  String.length "!00000000000000000000000000" = stringEncodedLength /\
  isBase62 "!00000000000000000000000000" = false /\
  returns_error (Parse "!00000000000000000000000000") = false.
Proof.
  split; [|split]; vm_compute; reflexivity.
Qed.

End RoundTrip.

(** ** Identifiers sort by time first *)

Section Sorting.

Lemma lexCompare_app (x y p q : list N) :
  length x = length y ->
  lexCompare (x ++ p) (y ++ q)
  = match lexCompare x y with
    | Eq => lexCompare p q
    | c => c
    end.
Proof.
  revert y. induction x as [|d x IH]; intros [|e y] H; try discriminate.
  - simpl. now destruct (lexCompare p q).
  - injection H as H. cbn [app lexCompare].
    destruct (N.compare d e); [now apply IH | reflexivity ..].
Qed.

(** The timestamp is the number of the first four bytes. *)
Lemma Timestamp_value (b0 b1 b2 b3 : byte) (rest : list byte) :
  Timestamp (b0 :: b1 :: b2 :: b3 :: rest)
  = Z.of_N (bigValue 256 (map Byte.to_N [b0; b1; b2; b3])).
Proof.
  unfold Timestamp.
  change (firstn timestampLengthInBytes (b0 :: b1 :: b2 :: b3 :: rest))
    with [b0; b1; b2; b3].
  rewrite Uint32_sum. unfold u8, bigValue. cbn [map fold_left]. lia.
Qed.

(** Comparing two identifiers is comparing their timestamps and, when
    these are equal, their payloads. *)
Theorem Compare_by_parts (a b : KSUID) :
  length a = byteLength -> length b = byteLength ->
  Compare a b
  = match Z.compare (Timestamp a) (Timestamp b) with
    | Lt => (-1)%Z
    | Eq => bytes_Compare (Payload a) (Payload b)
    | Gt => 1%Z
    end.
Proof.
  intros Ha Hb.
  do 4 (destruct a as [|? a]; [discriminate|]).
  do 4 (destruct b as [|? b]; [discriminate|]).
  rewrite !Timestamp_value, N2Z.inj_compare.
  change (Payload (b0 :: b1 :: b2 :: b3 :: a)) with a.
  change (Payload (b4 :: b5 :: b6 :: b7 :: b)) with b.
  unfold Compare. rewrite !bytes_Compare_lex.
  change (map Byte.to_N (b0 :: b1 :: b2 :: b3 :: a))
    with (map Byte.to_N [b0; b1; b2; b3] ++ map Byte.to_N a).
  change (map Byte.to_N (b4 :: b5 :: b6 :: b7 :: b))
    with (map Byte.to_N [b4; b5; b6; b7] ++ map Byte.to_N b).
  rewrite lexCompare_app by reflexivity.
  rewrite (lexCompare_value 256 base256_ge_2)
    by (reflexivity || apply to_N_below).
  now destruct (N.compare _ _).
Qed.

Lemma Compare_by_parts_witness :
  Compare (x00 :: repeat xff 19) (x01 :: repeat x00 19) = (-1)%Z.
Proof.
  rewrite (Compare_by_parts (x00 :: repeat xff 19) (x01 :: repeat x00 19));
    reflexivity.
Defined.

End Sorting.

(** ** Binary form and the adapters *)

Section Adapters.

Lemma scan_20 (i : KSUID) (b : list byte) :
  length b = byteLength -> scan i b = Ret (b, None).
Proof.
  intros Hb. unfold scan. rewrite Hb. cbn [byteLength Nat.add
    timestampLengthInBytes payloadLengthInBytes Nat.eqb].
  unfold UnmarshalBinary. now rewrite FromBytes_ok.
Qed.

(** The binary form round trip.  For a 20-byte identifier, [FromBytes] of
    its [Bytes] and [UnmarshalBinary] of its [MarshalBinary] give it back,
    whatever the receiver held; and [Scan] takes every 20-byte input, a
    byte slice or a string, as the raw bytes of the identifier. *)
Theorem binary_roundtrip (i k : KSUID) :
  length k = byteLength ->
  FromBytes (Bytes k) = (k, None) /\
  UnmarshalBinary i (fst (MarshalBinary k)) = (k, None) /\
  Scan i (SrcBytes k) = Ret (k, None) /\
  Scan i (SrcString (string_of_list_byte k)) = Ret (k, None).
Proof.
  intros Hk. split; [|split; [|split]].
  - now apply FromBytes_ok.
  - unfold UnmarshalBinary, MarshalBinary, Bytes. cbn [fst].
    now rewrite FromBytes_ok.
  - cbn [Scan]. now apply scan_20.
  - cbn [Scan]. rewrite list_byte_of_string_of_list_byte. now apply scan_20.
Qed.

Lemma binary_roundtrip_witness :
  FromBytes (Bytes (repeat x2a 20)) = (repeat x2a 20, None) /\
  UnmarshalBinary Nil (fst (MarshalBinary (repeat x2a 20)))
    = (repeat x2a 20, None) /\
  Scan Nil (SrcBytes (repeat x2a 20)) = Ret (repeat x2a 20, None) /\
  Scan Nil (SrcString (string_of_list_byte (repeat x2a 20)))
    = Ret (repeat x2a 20, None).
Proof.
  apply (binary_roundtrip Nil (repeat x2a 20)). reflexivity.
Defined.

Lemma UnmarshalText_error (i : KSUID) (b : list byte) (k : KSUID) (e : error) :
  UnmarshalText i b = Ret (k, Some e) ->
  k = i /\ e = errStrSize /\ length b <> stringEncodedLength.
Proof.
  unfold UnmarshalText. intros H.
  destruct (Nat.eq_dec (length b) stringEncodedLength) as [Hb|Hb].
  - rewrite <- length_string_of_list_byte in Hb.
    destruct (Parse_27 _ Hb) as [HP|(k' & _ & HP)]; rewrite HP in H;
      discriminate.
  - assert (HP : Parse (string_of_list_byte b) = Ret (Nil, Some errStrSize)).
    { unfold Parse. rewrite length_string_of_list_byte.
      apply Nat.eqb_neq in Hb. now rewrite Hb. }
    rewrite HP in H. injection H as <- <-. auto.
Qed.

Lemma UnmarshalBinary_error (i : KSUID) (b : list byte) (k : KSUID) (e : error) :
  UnmarshalBinary i b = (k, Some e) ->
  k = i /\ e = errSize /\ length b <> byteLength.
Proof.
  unfold UnmarshalBinary, FromBytes. intros H.
  destruct (Nat.eqb_spec (length b) byteLength) as [Hb|Hb]; cbv [negb] in H.
  - discriminate.
  - injection H as <- <-. auto.
Qed.

Lemma scan_error (i : KSUID) (b : list byte) (k : KSUID) (e : error) :
  scan i b = Ret (k, Some e) -> k = i /\ e = errSize.
Proof.
  unfold scan. destruct (length b) as [|n] eqn:Hn; [discriminate|].
  destruct (Nat.eqb_spec (S n) byteLength) as [H20|H20].
  - intros H. injection H as H. apply UnmarshalBinary_error in H.
    rewrite Hn in H. tauto.
  - destruct (Nat.eqb_spec (S n) stringEncodedLength) as [H27|H27].
    + intros H. apply UnmarshalText_error in H. rewrite Hn in H. tauto.
    + intros H. injection H as <- <-. auto.
Qed.

(** Errors of the adapters.  An error of [UnmarshalBinary] is the size
    error and one of [UnmarshalText] or [Set] the string-size error, each
    for an input of another length than 20 or 27; an error of [Scan] is the
    size error or, for a type it does not take, the type error, and never
    the string-size error.  Whenever one of them returns an error, the
    receiver holds what it held. *)
Theorem adapters_errors (i : KSUID) :
  (forall b k e, UnmarshalBinary i b = (k, Some e) ->
     k = i /\ e = errSize /\ length b <> byteLength) /\
  (forall b k e, UnmarshalText i b = Ret (k, Some e) ->
     k = i /\ e = errStrSize /\ length b <> stringEncodedLength) /\
  (forall s k e, KSet i s = Ret (k, Some e) ->
     k = i /\ e = errStrSize /\ String.length s <> stringEncodedLength) /\
  (forall src k e, Scan i src = Ret (k, Some e) ->
     k = i /\
     (e = errSize \/ exists typ, src = SrcOther typ /\ e = errScanType typ)).
Proof.
  split; [|split; [|split]].
  - apply UnmarshalBinary_error.
  - apply UnmarshalText_error.
  - intros s k e H. unfold KSet in H. apply UnmarshalText_error in H.
    now rewrite length_list_byte_of_string in H.
  - intros src k e H. destruct src as [|v|v|typ]; cbn [Scan] in H.
    + apply scan_error in H. tauto.
    + apply scan_error in H. tauto.
    + apply scan_error in H. tauto.
    + injection H as <- <-. split; [reflexivity|]. right. now exists typ.
Qed.

Lemma adapters_errors_witness :
  exists (k : KSUID) (e : error),
    Scan (repeat x2a 20) (SrcString "short") = Ret (k, Some e) /\
    k = repeat x2a 20 /\
    (e = errSize \/
     exists typ, SrcString "short" = SrcOther typ /\ e = errScanType typ).
Proof.
  destruct (adapters_errors (repeat x2a 20)) as (_ & _ & _ & H).
  eexists. eexists. split; [reflexivity|].
  apply (H (SrcString "short")). reflexivity.
Defined.

End Adapters.

(** ** Construction from parts *)

Section FromPartsFacts.
Local Open Scope Z_scope.

(** [FromParts] keeps the payload: the identifier has 20 bytes and its
    [Payload] is the payload given. *)
Theorem FromParts_Payload (t : Time) (p : list byte) :
  length p = payloadLengthInBytes ->
  exists k : KSUID,
    FromParts t p = (k, None) /\ length k = byteLength /\ Payload k = p.
Proof.
  intros Hp. eexists. split; [now apply FromParts_ok|].
  rewrite PutUint32_bytes. split.
  - cbn [app length]. rewrite Hp. reflexivity.
  - reflexivity.
Qed.

Lemma FromParts_Payload_witness :
  exists k : KSUID,
    FromParts (mkTime 1500000000 5) (repeat x2a 16) = (k, None) /\
    length k = byteLength /\ Payload k = repeat x2a 16.
Proof.
  apply (FromParts_Payload (mkTime 1500000000 5) (repeat x2a 16)). reflexivity.
Defined.

Lemma same_residue (a b : Z) :
  (a - epochStamp) mod 2 ^ 32 = (b - epochStamp) mod 2 ^ 32
  <-> (a - b) mod 2 ^ 32 = 0.
Proof.
  unfold epochStamp. change (2 ^ 32) with 4294967296.
  split; intros H; Z.div_mod_to_equations; lia.
Qed.

(** [FromParts] sees of the time only its whole seconds, and these only
    modulo [2^32]: with one payload, two times give the same identifier
    exactly when their Unix seconds differ by a multiple of [2^32]. *)
Theorem FromParts_same (t1 t2 : Time) (p : list byte) :
  length p = payloadLengthInBytes ->
  (FromParts t1 p = FromParts t2 p <-> (Unix t1 - Unix t2) mod 2 ^ 32 = 0).
Proof.
  intros Hp. rewrite !FromParts_ok by exact Hp.
  rewrite <- same_residue, <- !timeToCorrectedUTCTimestamp_mod. split.
  - intros H. apply (f_equal fst) in H. cbn [fst] in H.
    apply app_inv_tail in H. apply (f_equal Uint32) in H. rewrite !Uint32_PutUint32 in H.
    rewrite !timeToCorrectedUTCTimestamp_mod in *.
    now rewrite !Z.mod_mod in H by lia.
  - intros H. now rewrite H.
Qed.

Lemma FromParts_same_witness :
  FromParts (mkTime 1500000000 0) (repeat x2a 16)
  = FromParts (mkTime (1500000000 + 2 ^ 32) 999) (repeat x2a 16).
Proof.
  apply (FromParts_same (mkTime 1500000000 0)
           (mkTime (1500000000 + 2 ^ 32) 999) (repeat x2a 16));
    reflexivity.
Defined.

(** The identifier [FromParts] builds is the nil identifier exactly when
    the payload is all zero and the time is the epoch offset, up to a
    multiple of [2^32] seconds. *)
Theorem FromParts_IsNil (t : Time) (p : list byte) :
  length p = payloadLengthInBytes ->
  (IsNil (fst (FromParts t p)) = true
   <-> (Unix t - epochStamp) mod 2 ^ 32 = 0
       /\ p = repeat x00 payloadLengthInBytes).
Proof.
  intros Hp. rewrite FromParts_ok by exact Hp. cbn [fst].
  unfold IsNil. rewrite bytes_eqb_eq.
  change Nil with ([x00; x00; x00; x00] ++ repeat x00 payloadLengthInBytes).
  rewrite <- timeToCorrectedUTCTimestamp_mod.
  set (ts := timeToCorrectedUTCTimestamp t).
  assert (Hts : Uint32 (PutUint32 [x00; x00; x00; x00] ts) = ts).
  { rewrite Uint32_PutUint32. subst ts.
    rewrite timeToCorrectedUTCTimestamp_mod. apply Z.mod_mod. lia. }
  split.
  - intros H. rewrite PutUint32_bytes in H, Hts. cbn [app] in H.
    injection H as H0 H1 H2 H3 Hp'. rewrite H0, H1, H2, H3 in Hts.
    split; [rewrite <- Hts; reflexivity | exact Hp'].
  - intros [H0 ->]. rewrite H0. reflexivity.
Qed.

Lemma FromParts_IsNil_witness :
  IsNil (fst (FromParts (mkTime 1400000000 7) (repeat x00 16))) = true.
Proof.
  apply (FromParts_IsNil (mkTime 1400000000 7) (repeat x00 16));
    [reflexivity | split; reflexivity].
Defined.

(** The timestamp of an identifier is a 32-bit number, and its time is
    that many whole seconds after the epoch offset, so between Unix second
    1400000000 and [2^32] seconds later. *)
Theorem Timestamp_Time_range (k : KSUID) :
  length k = byteLength ->
  0 <= Timestamp k < 2 ^ 32 /\
  KTime k = mkTime (Timestamp k + epochStamp) 0 /\
  epochStamp <= Unix (KTime k) < epochStamp + 2 ^ 32.
Proof.
  intros Hk.
  assert (HT : 0 <= Timestamp k < 2 ^ 32).
  { unfold Timestamp. apply Uint32_range. rewrite length_firstn, Hk.
    reflexivity. }
  assert (HK : KTime k = mkTime (Timestamp k + epochStamp) 0)
    by now apply correctedUTCTimestampToTime_whole.
  split; [exact HT|]. split; [exact HK|].
  rewrite HK. unfold Unix, unixSec. lia.
Qed.

Lemma Timestamp_Time_range_witness :
  0 <= Timestamp (repeat xff 20) < 2 ^ 32 /\
  KTime (repeat xff 20) = mkTime (Timestamp (repeat xff 20) + epochStamp) 0 /\
  epochStamp <= Unix (KTime (repeat xff 20)) < epochStamp + 2 ^ 32.
Proof.
  apply (Timestamp_Time_range (repeat xff 20)). reflexivity.
Defined.

End FromPartsFacts.

(** ** The order of identifiers *)

Section Order.
Local Open Scope Z_scope.

Lemma cmpZ_values (c : comparison) : cmpZ c = -1 \/ cmpZ c = 0 \/ cmpZ c = 1.
Proof. destruct c; cbn; auto. Qed.

Lemma lexCompare_refl (xs : list N) : lexCompare xs xs = Eq.
Proof.
  induction xs as [|x xs IH]; [reflexivity|].
  cbn [lexCompare]. now rewrite N.compare_refl.
Qed.

Lemma lexCompare_antisym (xs ys : list N) :
  lexCompare ys xs = CompOpp (lexCompare xs ys).
Proof.
  revert ys. induction xs as [|x xs IH]; intros [|y ys]; try reflexivity.
  cbn [lexCompare]. rewrite (N.compare_antisym x y).
  destruct (N.compare x y); cbn [CompOpp]; [apply IH | reflexivity ..].
Qed.

Lemma lexCompare_trans (xs ys zs : list N) :
  lexCompare xs ys <> Gt -> lexCompare ys zs <> Gt -> lexCompare xs zs <> Gt.
Proof.
  revert ys zs. induction xs as [|x xs IH]; intros [|y ys] [|z zs];
    cbn [lexCompare]; try congruence.
  destruct (N.compare_spec x y) as [->|Hxy|Hxy]; try congruence.
  - destruct (N.compare_spec y z); try congruence. apply IH.
  - destruct (N.compare_spec y z) as [->|Hyz|Hyz]; try congruence.
    + intros _ _. apply N.compare_lt_iff in Hxy. now rewrite Hxy.
    + intros _ _. assert (H : (x < z)%N) by lia.
      apply N.compare_lt_iff in H. now rewrite H.
Qed.

(** [Compare] is a total order: it returns -1, 0 or 1, returns 0 exactly
    on equal identifiers, changes sign when its arguments are exchanged,
    and is transitive. *)
Theorem Compare_order (a b c : KSUID) :
  (Compare a b = -1 \/ Compare a b = 0 \/ Compare a b = 1) /\
  (Compare a b = 0 <-> a = b) /\
  Compare b a = - Compare a b /\
  (Compare a b <= 0 -> Compare b c <= 0 -> Compare a c <= 0).
Proof.
  unfold Compare. rewrite !bytes_Compare_lex.
  split; [apply cmpZ_values|]. split; [|split].
  - split.
    + intros H. apply map_to_N_inj, lexCompare_eq.
      destruct (lexCompare _ _); [reflexivity | discriminate ..].
    + intros ->. now rewrite lexCompare_refl.
  - rewrite (lexCompare_antisym (map Byte.to_N a)).
    now destruct (lexCompare _ _).
  - intros H1 H2.
    pose proof (lexCompare_trans (map Byte.to_N a) (map Byte.to_N b)
                  (map Byte.to_N c)) as HT.
    destruct (lexCompare (map Byte.to_N a) (map Byte.to_N b));
      destruct (lexCompare (map Byte.to_N b) (map Byte.to_N c));
      destruct (lexCompare (map Byte.to_N a) (map Byte.to_N c));
      cbn [cmpZ] in *; try lia; exfalso; apply HT; congruence.
Qed.

Lemma Compare_order_witness :
  Compare (repeat x01 20) (repeat x03 20) <= 0.
Proof.
  destruct (Compare_order (repeat x01 20) (repeat x02 20) (repeat x03 20))
    as (_ & _ & _ & H).
  apply H; vm_compute; discriminate.
Defined.

(** Identifiers compare as the 160-bit numbers they stand for, and so do
    their text forms. *)
Lemma Compare_value (a b : KSUID) :
  length a = length b ->
  Compare a b = cmpZ (N.compare (ksuidValue a) (ksuidValue b)).
Proof.
  intros H. unfold Compare, ksuidValue. rewrite bytes_Compare_lex.
  rewrite (lexCompare_value 256 base256_ge_2);
    [reflexivity | now rewrite !length_map | apply to_N_below ..].
Qed.

Lemma strings_Compare_KString (a b : KSUID) :
  length a = byteLength -> length b = byteLength ->
  strings_Compare (KString a) (KString b)
  = cmpZ (N.compare (ksuidValue a) (ksuidValue b)).
Proof.
  intros Ha Hb.
  destruct (KString_values a Ha) as (fa & _ & Hfa & La & Fa & Va).
  destruct (KString_values b Hb) as (fb & _ & Hfb & Lb & Fb & Vb).
  rewrite (strings_Compare_values _ _ fa fb Hfa Hfb).
  - now rewrite Va, Vb.
  - apply base62Chars_Values in Hfa, Hfb.
    rewrite <- !length_list_byte_of_string.
    destruct Hfa as (_ & _ & <-). destruct Hfb as (_ & _ & <-). congruence.
Qed.

Lemma bytes_Compare_app (x y p q : list byte) :
  length x = length y ->
  bytes_Compare (x ++ p) (y ++ q)
  = match bytes_Compare x y with
    | 0 => bytes_Compare p q
    | c => c
    end.
Proof.
  revert y. induction x as [|d x IH]; intros [|e y] H; try discriminate.
  - cbn [app bytes_Compare]. reflexivity.
  - injection H as H. cbn [app bytes_Compare].
    destruct (N.compare _ _); [now apply IH | reflexivity ..].
Qed.

Lemma bytes_Compare_words (x y : list byte) :
  length x = 4%nat -> length y = 4%nat ->
  bytes_Compare x y = cmpZ (Z.compare (Uint32 x) (Uint32 y)).
Proof.
  intros Hx Hy.
  destruct x as [|x0 [|x1 [|x2 [|x3 [|? ?]]]]]; try discriminate.
  destruct y as [|y0 [|y1 [|y2 [|y3 [|? ?]]]]]; try discriminate.
  rewrite bytes_Compare_lex.
  rewrite (lexCompare_value 256 base256_ge_2)
    by (reflexivity || apply to_N_below).
  rewrite <- N2Z.inj_compare. f_equal. f_equal.
  - rewrite Uint32_sum. unfold u8, bigValue. cbn [map fold_left]. lia.
  - rewrite Uint32_sum. unfold u8, bigValue. cbn [map fold_left]. lia.
Qed.

(** Identifiers sort by time.  Of two identifiers built by [FromParts]
    from times within the window of [2^32] seconds that starts at the
    epoch offset, the one of the earlier second compares below the other,
    whatever the payloads, and so does its text form. *)
Theorem chronological_order (t1 t2 : Time) (p1 p2 : list byte) :
  length p1 = payloadLengthInBytes -> length p2 = payloadLengthInBytes ->
  epochStamp <= Unix t1 -> Unix t1 < Unix t2 -> Unix t2 < epochStamp + 2 ^ 32 ->
  Compare (fst (FromParts t1 p1)) (fst (FromParts t2 p2)) = -1 /\
  strings_Compare (KString (fst (FromParts t1 p1)))
                  (KString (fst (FromParts t2 p2))) = -1.
Proof.
  intros Hp1 Hp2 H0 H12 H2.
  rewrite !FromParts_ok by assumption. cbn [fst].
  set (w1 := PutUint32 [x00; x00; x00; x00] (timeToCorrectedUTCTimestamp t1)).
  set (w2 := PutUint32 [x00; x00; x00; x00] (timeToCorrectedUTCTimestamp t2)).
  assert (L1 : length w1 = 4%nat) by reflexivity.
  assert (L2 : length w2 = 4%nat) by reflexivity.
  assert (HC : Compare (w1 ++ p1) (w2 ++ p2) = -1).
  { unfold Compare. rewrite bytes_Compare_app by congruence.
    rewrite (bytes_Compare_words w1 w2 L1 L2). subst w1 w2.
    rewrite !Uint32_PutUint32, !timeToCorrectedUTCTimestamp_mod.
    rewrite !Z.mod_mod by lia.
    rewrite (Z.mod_small (Unix t1 - epochStamp)) by lia.
    rewrite (Z.mod_small (Unix t2 - epochStamp)) by lia.
    assert (H : Unix t1 - epochStamp < Unix t2 - epochStamp) by lia.
    apply Z.compare_lt_iff in H. now rewrite H. }
  split; [exact HC|].
  assert (La : length (w1 ++ p1) = byteLength)
    by (rewrite length_app, L1, Hp1; reflexivity).
  assert (Lb : length (w2 ++ p2) = byteLength)
    by (rewrite length_app, L2, Hp2; reflexivity).
  rewrite strings_Compare_KString by assumption.
  rewrite <- Compare_value by congruence. exact HC.
Qed.

Lemma chronological_order_witness :
  Compare (fst (FromParts (mkTime 1500000000 0) (repeat xff 16)))
          (fst (FromParts (mkTime 1500000001 0) (repeat x00 16))) = -1 /\
  strings_Compare
    (KString (fst (FromParts (mkTime 1500000000 0) (repeat xff 16))))
    (KString (fst (FromParts (mkTime 1500000001 0) (repeat x00 16)))) = -1.
Proof.
  apply (chronological_order (mkTime 1500000000 0) (mkTime 1500000001 0)
           (repeat xff 16) (repeat x00 16));
    try reflexivity; vm_compute; discriminate.
Defined.

End Order.

(** ** Generation, continued *)

Section Generation.
Local Open Scope Z_scope.

Lemma NewRandom_cases (e : env) :
  NewRandom e
  = match snd (readFull e payloadLengthInBytes) with
    | Some err => (Nil, Some err)
    | None =>
        (PutUint32 [x00; x00; x00; x00] (timeToCorrectedUTCTimestamp (now e))
           ++ copy (copy (repeat x00 payloadLengthInBytes) (pooled e))
                (fst (readFull e payloadLengthInBytes)), None)
    end.
Proof.
  unfold NewRandom. rewrite length_copy, repeat_length.
  destruct (readFull e payloadLengthInBytes) as [read [err|]]; cbn [fst snd];
    [reflexivity|].
  now rewrite FromParts_ok by now rewrite !length_copy, repeat_length.
Qed.

(** A successful read.  When the random source fills the 16-byte buffer
    without error, [NewRandom] succeeds and [New] returns the same
    identifier: its payload is the bytes read and its timestamp that of
    the clock. *)
Theorem NewRandom_ok (e : env) (read : list byte) :
  readFull e payloadLengthInBytes = (read, None) ->
  length read = payloadLengthInBytes ->
  exists k : KSUID,
    NewRandom e = (k, None) /\ New e = Ret k /\
    length k = byteLength /\ Payload k = read /\
    Timestamp k = (Unix (now e) - epochStamp) mod 2 ^ 32.
Proof.
  intros Hr Hlen.
  assert (HN : NewRandom e
               = (PutUint32 [x00; x00; x00; x00]
                    (timeToCorrectedUTCTimestamp (now e)) ++ read, None)).
  { rewrite NewRandom_cases, Hr. cbn [fst snd].
    rewrite copy_same_length; [reflexivity|].
    now rewrite length_copy, repeat_length. }
  eexists. split; [exact HN|]. split; [unfold New; now rewrite HN|].
  split; [|split].
  - rewrite PutUint32_bytes. cbn [app length]. now rewrite Hlen.
  - rewrite PutUint32_bytes. reflexivity.
  - apply Timestamp_FromParts.
Qed.

Lemma NewRandom_ok_witness :
  let e := mkEnv (fun n => (repeat x2a n, None)) (repeat xff 16)
             (mkTime 1500000000 0) in
  exists k : KSUID,
    NewRandom e = (k, None) /\ New e = Ret k /\
    length k = byteLength /\ Payload k = repeat x2a 16 /\
    Timestamp k = (1500000000 - epochStamp) mod 2 ^ 32.
Proof.
  intros e. exact (NewRandom_ok e (repeat x2a 16) eq_refl eq_refl).
Defined.

(** The only error of [NewRandom] is the one of the random source, and it
    comes with the nil identifier; [New] panics exactly when the source
    fails, and otherwise returns a 20-byte identifier. *)
Theorem NewRandom_errors (e : env) :
  (forall k err, NewRandom e = (k, Some err) ->
     k = Nil /\ snd (readFull e payloadLengthInBytes) = Some err) /\
  (New e = Panic <-> snd (readFull e payloadLengthInBytes) <> None) /\
  (forall k, New e = Ret k -> length k = byteLength).
Proof.
  unfold New. rewrite NewRandom_cases.
  destruct (snd (readFull e payloadLengthInBytes)) as [err0|].
  - split; [|split].
    + intros k err H. injection H as <- <-. auto.
    + split; [discriminate | reflexivity].
    + discriminate.
  - split; [|split].
    + discriminate.
    + split; [discriminate | congruence].
    + intros k H. injection H as H. subst k.
      cbn [length]. now rewrite !length_copy.
Qed.

Lemma NewRandom_errors_witness :
  let e := mkEnv (fun n => (repeat x2a n, None)) (repeat xff 16)
             (mkTime 1500000000 0) in
  exists k : KSUID, New e = Ret k /\ length k = byteLength.
Proof.
  intros e. destruct (NewRandom_errors e) as (_ & _ & H).
  eexists. split; [reflexivity|]. apply H. reflexivity.
Defined.

End Generation.

(** ** Text form and the adapters *)

Section TextAdapters.

(** The text form round trip through the adapters.  For a 20-byte
    identifier, [UnmarshalText] of its [MarshalText], [Set] of its
    [String], and [Scan] of its [Value], as a string or as the bytes of
    the string, all store the identifier, whatever the receiver held; and
    [MarshalText] gives 27 bytes. *)
Theorem text_roundtrip (i k : KSUID) :
  length k = byteLength ->
  length (fst (MarshalText k)) = stringEncodedLength /\
  UnmarshalText i (fst (MarshalText k)) = Ret (k, None) /\
  KSet i (KString k) = Ret (k, None) /\
  Scan i (SrcString (fst (Value k))) = Ret (k, None) /\
  Scan i (SrcBytes (list_byte_of_string (fst (Value k)))) = Ret (k, None).
Proof.
  intros Hk.
  assert (HL : length (list_byte_of_string (KString k)) = stringEncodedLength).
  { destruct (KString_values k Hk) as (fd & Hb & _ & L & _).
    now rewrite Hb, length_map. }
  assert (HU : UnmarshalText i (list_byte_of_string (KString k)) = Ret (k, None)).
  { unfold UnmarshalText.
    now rewrite string_of_list_byte_of_string, Parse_KString. }
  assert (HS : scan i (list_byte_of_string (KString k)) = Ret (k, None)).
  { unfold scan. rewrite HL. exact HU. }
  cbn [MarshalText Value fst Scan]. unfold KSet. auto.
Qed.

Lemma text_roundtrip_witness :
  length (fst (MarshalText (repeat x2a 20))) = stringEncodedLength /\
  UnmarshalText Nil (fst (MarshalText (repeat x2a 20)))
    = Ret (repeat x2a 20, None) /\
  KSet Nil (KString (repeat x2a 20)) = Ret (repeat x2a 20, None) /\
  Scan Nil (SrcString (fst (Value (repeat x2a 20))))
    = Ret (repeat x2a 20, None) /\
  Scan Nil (SrcBytes (list_byte_of_string (fst (Value (repeat x2a 20)))))
    = Ret (repeat x2a 20, None).
Proof.
  apply (text_roundtrip Nil (repeat x2a 20)). reflexivity.
Defined.

(** The text form tells identifiers apart and stays within the alphabet:
    two 20-byte identifiers with one text form are equal, and every
    character of a text form is one of [0-9A-Za-z]. *)
Theorem KString_injective (a b : KSUID) :
  length a = byteLength -> length b = byteLength ->
  isBase62 (KString a) = true /\ (KString a = KString b -> a = b).
Proof.
  intros Ha Hb. split.
  - unfold isBase62.
    destruct (KString_values a Ha) as (fd & _ & -> & _). reflexivity.
  - intros H. pose proof (Parse_KString a Ha) as Pa.
    rewrite H, (Parse_KString b Hb) in Pa. congruence.
Qed.

Lemma KString_injective_witness :
  isBase62 (KString (repeat x2a 20)) = true /\
  (KString (repeat x2a 20) = KString (repeat x2a 20) ->
   repeat x2a 20 = repeat x2a 20).
Proof.
  apply (KString_injective (repeat x2a 20) (repeat x2a 20)); reflexivity.
Defined.

End TextAdapters.
